(** * Disk request scheduler and sector-level file reads of the Pintos excerpt

    A shallow embedding of [src/devices/disk.c], [src/devices/disk.h] and
    [src/filesys/file.c].  C [int], [off_t] (a 32-bit signed integer) and
    [block_sector_t] (a 32-bit unsigned integer) are integers of [Z] with
    the reduction to 32 bits written where the C code computes; pointers
    are addresses in [Z] with [NULL = 0]. *)

From stdpp Require Import gmap list.
From Stdlib Require Import ZArith Lia List Bool Sorted Strings.Byte.
Import ListNotations.
Local Open Scope Z_scope.

(** ** Machine integers *)

Module Int32.

Definition modulus : Z := 2 ^ 32.
Definition max_signed : Z := 2 ^ 31 - 1.
Definition min_signed : Z := - 2 ^ 31.

(** The value of an [int] / [off_t] expression: two's complement, 32 bits. *)
Definition to_s32 (z : Z) : Z := (z + 2 ^ 31) mod modulus - 2 ^ 31.

(** The value of a [block_sector_t] (uint32_t) expression. *)
Definition to_u32 (z : Z) : Z := z mod modulus.

Definition in_s32 (z : Z) : Prop := min_signed <= z <= max_signed.

End Int32.
Import Int32.

(** ** Outcomes of a call

    [Ok] is a normal return.  [NullDeref] is a load or store through the
    null pointer, [BadDeref] one through a pointer that names no live
    object, [Panic] a failed [ASSERT], and [OutOfFuel] says the bounded
    unrolling of a loop was too short (shown below never to happen). *)

Inductive outcome (A : Type) : Type :=
| Ok (a : A)
| NullDeref
| BadDeref
| Panic
| OutOfFuel.

Arguments Ok {A} a.
Arguments NullDeref {A}.
Arguments BadDeref {A}.
Arguments Panic {A}.
Arguments OutOfFuel {A}.

Definition NULL : Z := 0.

(** ** devices/disk.c *)

Module Disk.

(** [struct disk_request] (disk.h); [elem] is the queue link, which the
    list of the model replaces. *)
Record disk_request : Type := mk_request {
  sector : Z;
  is_write : bool;
  data : Z;
  deadline : Z
}.

(** Modelled from the spec: [list_insert_ordered] of lib/kernel/list.c,
    which is not among the sources.  The spec describes the insertion as
    an insertion sort that scans from the front and keeps ties in
    submission order: the new element goes before the first element [e]
    with [less elem e], and at the back when there is none. *)
Fixpoint list_insert_ordered {A : Type} (l : list A) (elem : A)
    (less : A -> A -> bool) : list A :=
  match l with
  | [] => [elem]
  | e :: l' =>
      if less elem e then elem :: e :: l'
      else e :: list_insert_ordered l' elem less
  end.

(** Modelled from the spec: [list_pop_front] of lib/kernel/list.c
    ("atomically checks-and-removes the front of the queue"), together
    with the [list_empty] test that guards it. *)
Definition list_pop_front {A : Type} (l : list A) : option (A * list A) :=
  match l with
  | [] => None
  | e :: l' => Some (e, l')
  end.

(** [disk_request_compare]: [req_a->deadline < req_b->deadline]. *)
Definition disk_request_compare (req_a req_b : disk_request) : bool :=
  deadline req_a <? deadline req_b.

(** The scheduler: the static [disk_queue], and the log of what the worker
    did (one [Processing] per [printf] line, and the [timer_sleep]s). *)
Inductive action : Type :=
| Processing (req : disk_request)
| Sleep (ticks : Z).

Record sched : Type := mk_sched {
  disk_queue : list disk_request;
  worker_log : list action
}.

(** [disk_init]: an empty queue. *)
Definition disk_init : sched := {| disk_queue := []; worker_log := [] |}.

(** [disk_schedule_request].  [req] is what [malloc] returned; the four
    stores [req->sector = ...] go through it unchecked, so a null [req]
    is a null dereference.  Lock acquire and release bracket the insertion
    and make it one atomic step. *)
Definition disk_schedule_request (req : Z) (sector : Z) (is_write : bool)
    (data : Z) (deadline : Z) (st : sched) : outcome sched :=
  if req =? NULL then NullDeref
  else
    let r := mk_request sector is_write data deadline in
    Ok {| disk_queue := list_insert_ordered (disk_queue st) r disk_request_compare;
          worker_log := worker_log st |}.

(** One iteration of the [while (true)] loop of [disk_process]. *)
Definition disk_process_iteration (st : sched) : sched :=
  match list_pop_front (disk_queue st) with
  | Some (req, q') =>
      {| disk_queue := q';
         worker_log := worker_log st ++ [Processing req; Sleep 100] |}
  | None =>
      {| disk_queue := disk_queue st;
         worker_log := worker_log st ++ [Sleep 10] |}
  end.

(** The requests the worker has serviced, in service order. *)
Fixpoint serviced_of (log : list action) : list disk_request :=
  match log with
  | [] => []
  | Processing r :: log' => r :: serviced_of log'
  | Sleep _ :: log' => serviced_of log'
  end.

Definition serviced (st : sched) : list disk_request :=
  serviced_of (worker_log st).

(** Interleavings: the lock makes each call of [disk_schedule_request]
    and each queue access of the worker atomic, so a run of the system is
    a sequence of these two steps in some order. *)
Inductive event : Type :=
| Schedule (req : Z) (sector : Z) (is_write : bool) (data : Z) (deadline : Z)
| Process.

Definition step (e : event) (st : sched) : outcome sched :=
  match e with
  | Schedule req s w d dl => disk_schedule_request req s w d dl st
  | Process => Ok (disk_process_iteration st)
  end.

Fixpoint run (evs : list event) (st : sched) : outcome sched :=
  match evs with
  | [] => Ok st
  | e :: evs' =>
      match step e st with
      | Ok st' => run evs' st'
      | NullDeref => NullDeref
      | BadDeref => BadDeref
      | Panic => Panic
      | OutOfFuel => OutOfFuel
      end
  end.

(** The requests submitted by a run, in submission order. *)
Fixpoint submitted (evs : list event) : list disk_request :=
  match evs with
  | [] => []
  | Schedule _ s w d dl :: evs' => mk_request s w d dl :: submitted evs'
  | Process :: evs' => submitted evs'
  end.

Definition deadline_le (a b : disk_request) : Prop := deadline a <= deadline b.

Definition has_deadline (d : Z) (r : disk_request) : bool := deadline r =? d.

(** The requests of [l] whose deadline is [d], in the order of [l]. *)
Definition with_deadline (d : Z) (l : list disk_request) : list disk_request :=
  List.filter (has_deadline d) l.

(** The invariant: the queue ascends by deadline; queued and serviced
    requests together are the submitted ones; and for every deadline [d]
    the requests of deadline [d], serviced ones first and then the queued
    ones front to back, stand in the order of their submission. *)
Definition queue_inv (sub : list disk_request) (st : sched) : Prop :=
  StronglySorted deadline_le (disk_queue st) /\
  Permutation (serviced st ++ disk_queue st) sub /\
  forall d, with_deadline d (serviced st ++ disk_queue st) = with_deadline d sub.

(** A run for the examples: three submissions, one pass of the worker,
    two more submissions; and the state it ends in. *)
Definition demo_events : list event :=
  [ Schedule 4096 10 false 0 5; Schedule 4128 11 true 0 3;
    Schedule 4160 12 false 0 5; Process; Schedule 4128 13 false 0 3;
    Schedule 4192 14 true 0 1 ].

Definition demo_sched : sched :=
  {| disk_queue := [ mk_request 14 true 0 1; mk_request 13 false 0 3;
                     mk_request 10 false 0 5; mk_request 12 false 0 5 ];
     worker_log := [ Processing (mk_request 11 true 0 3); Sleep 100 ] |}.

End Disk.

(** ** filesys/file.c *)

Module File.

(** [struct file]. *)
Record struct_file : Type := mk_file {
  inode : Z;          (* struct inode *inode *)
  pos : Z;            (* off_t pos *)
  deny_write : bool   (* bool deny_write *)
}.

(** The collaborators of file.c that are not among the sources: the inode
    layer (filesys/inode.c), the buffer cache and the sector size
    (devices/block.h).  They are taken as parameters.  During one call the
    inode and the cache are read only, so their answers are functions of
    the arguments. *)
Class Collaborators : Type := {
  (** [#define BLOCK_SECTOR_SIZE]: bytes per sector. *)
  BLOCK_SECTOR_SIZE : Z;
  (** [byte_to_sector (inode, pos)]: the sector holding byte [pos], or
      [-1] (as a [block_sector_t]) when there is none. *)
  byte_to_sector : Z -> Z -> Z;
  (** [inode_length (inode)]. *)
  inode_length : Z -> Z;
  (** The current contents of the cache: byte [i] of sector [s]. *)
  sector_data : Z -> Z -> byte;
  (** [inode_read_at (inode, buffer, size, ofs)] on a memory: the count
      returned and the memory after it. *)
  inode_read_at : Z -> Z -> Z -> Z -> (Z -> byte) -> Z * (Z -> byte);
  (** [inode_write_at (inode, buffer, size, ofs)] on a memory: the count
      returned. *)
  inode_write_at : Z -> Z -> Z -> Z -> (Z -> byte) -> Z;
  (** [inode_reopen (inode)]: the pointer returned. *)
  inode_reopen : Z -> Z
}.

(** Calls into the collaborators, as file.c issues them. *)
Inductive call : Type :=
| call_inode_close (inode : Z)
| call_inode_reopen (inode : Z)
| call_inode_deny_write (inode : Z)
| call_inode_allow_write (inode : Z)
| call_inode_read_at (inode buffer size ofs : Z)
| call_inode_write_at (inode buffer size ofs : Z)
| call_buffer_cache_read (sector buffer : Z)
| call_cache_read_ahead (sector : Z).

(** The state file.c runs in: the live [struct file] objects by address,
    the bytes of memory, and the calls made so far.  Handles and buffers
    are addresses of one address space.  [files] records the fields of
    each object as the assignments of file.c leave them; a byte stored
    through a buffer pointer changes [mem] only.  Where such a store lands
    on the addresses of a [struct file] (as the sector-sized store of
    [file_read_at] can when the object lies behind a short buffer: the
    overrun example below), the object in the machine holds the bytes of
    [mem], and [files] no longer tells what it holds. *)
Record kstate : Type := mk_kstate {
  files : gmap Z struct_file;
  mem : Z -> byte;
  calls : list call
}.

Definition set_files (m : gmap Z struct_file) (s : kstate) : kstate :=
  {| files := m; mem := mem s; calls := calls s |}.

Definition set_mem (m : Z -> byte) (s : kstate) : kstate :=
  {| files := files s; mem := m; calls := calls s |}.

Definition log_call (c : call) (s : kstate) : kstate :=
  {| files := files s; mem := mem s; calls := calls s ++ [c] |}.

(** State and error monad of the embedding. *)
Definition M (A : Type) : Type := kstate -> outcome (A * kstate).

Definition ret {A : Type} (a : A) : M A := fun s => Ok (a, s).

Definition bind {A B : Type} (c : M A) (k : A -> M B) : M B :=
  fun s =>
    match c s with
    | Ok (a, s') => k a s'
    | NullDeref => NullDeref
    | BadDeref => BadDeref
    | Panic => Panic
    | OutOfFuel => OutOfFuel
    end.

Notation "'let*' x ':=' c 'in' k" := (bind c (fun x => k))
  (at level 10, x name, c at level 200, k at level 200).
Notation "c1 '>>' c2" := (bind c1 (fun _ => c2))
  (at level 100, c2 at level 200, right associativity).

(** [ASSERT (cond)]. *)
Definition ASSERT (cond : bool) : M unit :=
  fun s => if cond then Ok (tt, s) else Panic.

(** [*file] read through a [struct file *]. *)
Definition load (file : Z) : M struct_file :=
  fun s =>
    if file =? NULL then NullDeref
    else match files s !! file with
         | Some f => Ok (f, s)
         | None => BadDeref
         end.

(** A field of [*file] written through a [struct file *]. *)
Definition store (file : Z) (upd : struct_file -> struct_file) : M unit :=
  let* f := load file in
  fun s => Ok (tt, set_files (<[file := upd f]> (files s)) s).

Definition with_inode (i : Z) (f : struct_file) : struct_file :=
  {| inode := i; pos := pos f; deny_write := deny_write f |}.
Definition with_pos (p : Z) (f : struct_file) : struct_file :=
  {| inode := inode f; pos := p; deny_write := deny_write f |}.
Definition with_deny_write (b : bool) (f : struct_file) : struct_file :=
  {| inode := inode f; pos := pos f; deny_write := b |}.

(** [calloc (1, sizeof *file)]: [c] is the pointer the allocator hands
    out, [NULL] when it fails; the new object is zeroed. *)
Definition calloc (c : Z) : M Z :=
  fun s =>
    if c =? NULL then Ok (NULL, s)
    else Ok (c, set_files (<[c := mk_file NULL 0 false]> (files s)) s).

(** [free (file)]; freeing [NULL] does nothing. *)
Definition free (file : Z) : M unit :=
  fun s =>
    if file =? NULL then Ok (tt, s)
    else Ok (tt, set_files (delete file (files s)) s).

Definition do_call (c : call) : M unit := fun s => Ok (tt, log_call c s).

(** The local variables of the loop of [file_read_at]. *)
Record locals : Type := mk_locals {
  buffer_ : Z;      (* uint8_t *buffer_ *)
  file_ofs : Z;     (* off_t file_ofs *)
  size : Z;         (* off_t size *)
  bytes_read : Z    (* off_t bytes_read *)
}.

Section Operations.

Context {C : Collaborators}.

(** [file_open (inode)], with [c] the result of its [calloc]. *)
Definition file_open (inode : Z) (c : Z) : M Z :=
  let* file := calloc c in
  if negb (inode =? NULL) && negb (file =? NULL) then
    store file (with_inode inode) >>
    store file (with_pos 0) >>
    store file (with_deny_write false) >>
    ret file
  else
    do_call (call_inode_close inode) >>
    free file >>
    ret NULL.

(** [file_reopen (file)]. *)
Definition file_reopen (file : Z) (c : Z) : M Z :=
  let* f := load file in
  do_call (call_inode_reopen (inode f)) >>
  file_open (inode_reopen (inode f)) c.

(** [file_allow_write (file)]. *)
Definition file_allow_write (file : Z) : M unit :=
  ASSERT (negb (file =? NULL)) >>
  let* f := load file in
  if deny_write f then
    store file (with_deny_write false) >>
    do_call (call_inode_allow_write (inode f))
  else ret tt.

(** [file_deny_write (file)]. *)
Definition file_deny_write (file : Z) : M unit :=
  ASSERT (negb (file =? NULL)) >>
  let* f := load file in
  if negb (deny_write f) then
    store file (with_deny_write true) >>
    do_call (call_inode_deny_write (inode f))
  else ret tt.

(** [file_close (file)]. *)
Definition file_close (file : Z) : M unit :=
  if negb (file =? NULL) then
    file_allow_write file >>
    let* f := load file in
    do_call (call_inode_close (inode f)) >>
    free file
  else ret tt.

(** [file_get_inode (file)]. *)
Definition file_get_inode (file : Z) : M Z :=
  let* f := load file in ret (inode f).

(** [file_read (file, buffer, size)]. *)
Definition file_read (file : Z) (buffer : Z) (size : Z) : M Z :=
  let* f := load file in
  do_call (call_inode_read_at (inode f) buffer size (pos f)) >>
  let* bytes_read :=
    (fun s => let '(n, m) := inode_read_at (inode f) buffer size (pos f) (mem s) in
              Ok (n, set_mem m s)) in
  store file (with_pos (to_s32 (pos f + bytes_read))) >>
  ret bytes_read.

(** [file_write (file, buffer, size)]. *)
Definition file_write (file : Z) (buffer : Z) (size : Z) : M Z :=
  let* f := load file in
  do_call (call_inode_write_at (inode f) buffer size (pos f)) >>
  let* bytes_written :=
    (fun s => Ok (inode_write_at (inode f) buffer size (pos f) (mem s), s)) in
  store file (with_pos (to_s32 (pos f + bytes_written))) >>
  ret bytes_written.

(** [file_write_at (file, buffer, size, file_ofs)]. *)
Definition file_write_at (file : Z) (buffer : Z) (size : Z) (file_ofs : Z) : M Z :=
  let* f := load file in
  do_call (call_inode_write_at (inode f) buffer size file_ofs) >>
  fun s => Ok (inode_write_at (inode f) buffer size file_ofs (mem s), s).

(** [file_length (file)]. *)
Definition file_length (file : Z) : M Z :=
  ASSERT (negb (file =? NULL)) >>
  let* f := load file in ret (inode_length (inode f)).

(** [file_seek (file, new_pos)]. *)
Definition file_seek (file : Z) (new_pos : Z) : M unit :=
  ASSERT (negb (file =? NULL)) >>
  ASSERT (new_pos >=? 0) >>
  store file (with_pos new_pos).

(** [file_tell (file)]. *)
Definition file_tell (file : Z) : M Z :=
  ASSERT (negb (file =? NULL)) >>
  let* f := load file in ret (pos f).

(** Modelled from the spec: [buffer_cache_read (sector, buffer)] of the
    buffer cache, which is not among the sources.  The spec's interface:
    the fetch "is synchronous and always returns the full sector's current
    contents"; so the [BLOCK_SECTOR_SIZE] bytes of [sector] are stored at
    [buffer], [buffer + 1], ... *)
Definition buffer_cache_read (sector buffer : Z) : M unit :=
  do_call (call_buffer_cache_read sector buffer) >>
  fun s =>
    Ok (tt, set_mem (fun a => if (buffer <=? a) && (a <? buffer + BLOCK_SECTOR_SIZE)
                              then sector_data sector (a - buffer)
                              else mem s a) s).

(** Modelled from the spec: [cache_read_ahead (sector)] of the buffer
    cache, which is not among the sources.  The spec's interface is
    "hint-read-ahead(sector)", "fire-and-forget, never blocks, never fails
    visibly": the hint is recorded with the sector it is given. *)
Definition cache_read_ahead (sector : Z) : M unit :=
  do_call (call_cache_read_ahead sector).

(** One pass through [while (size > 0) { ... }] of [file_read_at]:
    [None] when the loop is left (the condition fails, or a [break]),
    the updated variables otherwise. *)
Definition file_read_at_iteration (inode : Z) (v : locals) : M (option locals) :=
  if negb (size v >? 0) then ret None
  else
    let sector_idx := to_u32 (byte_to_sector inode (file_ofs v)) in
    if sector_idx =? to_u32 (-1) then ret None
    else
      let sector_ofs := Z.rem (file_ofs v) BLOCK_SECTOR_SIZE in
      let inode_left := to_s32 (inode_length inode - file_ofs v) in
      let sector_left := to_s32 (BLOCK_SECTOR_SIZE - sector_ofs) in
      let min_left := if inode_left <? sector_left then inode_left else sector_left in
      let chunk_size := if size v <? min_left then size v else min_left in
      if chunk_size <=? 0 then ret None
      else
        buffer_cache_read sector_idx (buffer_ v) >>
        let v' := {| buffer_ := buffer_ v + chunk_size;
                     file_ofs := to_s32 (file_ofs v + chunk_size);
                     size := to_s32 (size v - chunk_size);
                     bytes_read := to_s32 (bytes_read v + chunk_size) |} in
        cache_read_ahead sector_idx >>
        ret (Some v').

(** The loop, unrolled at most [fuel] + 1 times. *)
Fixpoint file_read_at_loop (fuel : nat) (inode : Z) (v : locals) : M Z :=
  let* next := file_read_at_iteration inode v in
  match next with
  | None => ret (bytes_read v)
  | Some v' =>
      match fuel with
      | O => fun _ => OutOfFuel
      | S fuel' => file_read_at_loop fuel' inode v'
      end
  end.

(** [file_read_at (file, buffer, size, file_ofs)].  Every pass lowers
    [size] by at least one, so [size] passes are enough. *)
Definition file_read_at (file : Z) (buffer : Z) (size : Z) (file_ofs : Z) : M Z :=
  let* f := load file in
  file_read_at_loop (Z.to_nat size) (inode f)
    {| buffer_ := buffer; file_ofs := file_ofs; size := size; bytes_read := 0 |}.

(** The states of one call's loop: [iterates inode v0 s0 v s] when the
    loop started with variables [v0] in state [s0] stands, after some
    number of passes, at its head with variables [v] in state [s]. *)
Inductive iterates (inode : Z) (v0 : locals) (s0 : kstate) : locals -> kstate -> Prop :=
| iterates_start : iterates inode v0 s0 v0 s0
| iterates_next v s v' s' :
    iterates inode v0 s0 v s ->
    file_read_at_iteration inode v s = Ok (Some v', s') ->
    iterates inode v0 s0 v' s'.

(** The values one pass computes from the variables at its head. *)
Definition sector_idx_of (inode : Z) (v : locals) : Z :=
  to_u32 (byte_to_sector inode (file_ofs v)).

Definition sector_ofs_of (v : locals) : Z :=
  Z.rem (file_ofs v) BLOCK_SECTOR_SIZE.

Definition chunk_size_of (inode : Z) (v : locals) : Z :=
  let inode_left := to_s32 (inode_length inode - file_ofs v) in
  let sector_left := to_s32 (BLOCK_SECTOR_SIZE - sector_ofs_of v) in
  let min_left := if inode_left <? sector_left then inode_left else sector_left in
  if size v <? min_left then size v else min_left.

(** Whether a pass started with [v] runs to its end (the loop condition
    holds and neither [break] is taken). *)
Definition continues (inode : Z) (v : locals) : bool :=
  (size v >? 0)
  && negb (sector_idx_of inode v =? to_u32 (-1))
  && negb (chunk_size_of inode v <=? 0).

(** The variables and the state at the end of such a pass. *)
Definition next_locals (inode : Z) (v : locals) : locals :=
  {| buffer_ := buffer_ v + chunk_size_of inode v;
     file_ofs := to_s32 (file_ofs v + chunk_size_of inode v);
     size := to_s32 (size v - chunk_size_of inode v);
     bytes_read := to_s32 (bytes_read v + chunk_size_of inode v) |}.

Definition next_state (inode : Z) (v : locals) (s : kstate) : kstate :=
  {| files := files s;
     mem := fun a => if (buffer_ v <=? a) && (a <? buffer_ v + BLOCK_SECTOR_SIZE)
                     then sector_data (sector_idx_of inode v) (a - buffer_ v)
                     else mem s a;
     calls := (calls s ++ [call_buffer_cache_read (sector_idx_of inode v) (buffer_ v)])
              ++ [call_cache_read_ahead (sector_idx_of inode v)] |}.

(** The bytes of the file as the inode lays them out: byte [ofs] of the
    file is byte [ofs mod BLOCK_SECTOR_SIZE] of the sector that holds
    offset [ofs]. *)
Definition file_byte (inode : Z) (ofs : Z) : byte :=
  sector_data (to_u32 (byte_to_sector inode ofs)) (ofs mod BLOCK_SECTOR_SIZE).

(** Sequences of [file_deny_write] / [file_allow_write] calls on one
    handle. *)
Inductive toggle : Type := Deny | Allow.

Definition toggle_call (file : Z) (t : toggle) : M unit :=
  match t with
  | Deny => file_deny_write file
  | Allow => file_allow_write file
  end.

Fixpoint toggle_calls (file : Z) (ts : list toggle) : M unit :=
  match ts with
  | [] => ret tt
  | t :: ts' => toggle_call file t >> toggle_calls file ts'
  end.

End Operations.

(** The write denials that the calls [cs] leave outstanding on inode [i]:
    its [inode_deny_write] calls less its [inode_allow_write] calls. *)
Fixpoint net_denials (i : Z) (cs : list call) : Z :=
  match cs with
  | [] => 0
  | call_inode_deny_write j :: cs' =>
      (if j =? i then 1 else 0) + net_denials i cs'
  | call_inode_allow_write j :: cs' =>
      net_denials i cs' - (if j =? i then 1 else 0)
  | _ :: cs' => net_denials i cs'
  end.

(** The sectors the calls [cs] fetch through the cache, and the sectors
    their read-ahead hints name, in call order. *)
Fixpoint fetched_sectors (cs : list call) : list Z :=
  match cs with
  | [] => []
  | call_buffer_cache_read sector _ :: cs' => sector :: fetched_sectors cs'
  | _ :: cs' => fetched_sectors cs'
  end.

Fixpoint hinted_sectors (cs : list call) : list Z :=
  match cs with
  | [] => []
  | call_cache_read_ahead sector :: cs' => sector :: hinted_sectors cs'
  | _ :: cs' => hinted_sectors cs'
  end.

(** The two calls of one pass of [file_read_at] that fetches [sector]
    into [buffer]. *)
Definition pass_calls (p : Z * Z) : list call :=
  [call_buffer_cache_read (fst p) (snd p); call_cache_read_ahead (fst p)].

(** A concrete setting for the examples: sectors of 512 bytes, one file
    ([inode_length] 1536) laid out on sectors 0, 1 and 2, and byte [i] of
    sector [s] holding [(16 * s + i) mod 256]. *)
Definition byte_of_Z (z : Z) : byte :=
  match Byte.of_N (Z.to_N (z mod 256)) with
  | Some b => b
  | None => x00
  end.

Definition demo : Collaborators := {|
  BLOCK_SECTOR_SIZE := 512;
  byte_to_sector := fun _ p => if (0 <=? p) && (p <? 1536) then p / 512 else -1;
  inode_length := fun _ => 1536;
  sector_data := fun s i => byte_of_Z (16 * s + i);
  inode_read_at := fun _ _ _ _ m => (0, m);
  inode_write_at := fun _ _ _ _ _ => 0;
  inode_reopen := fun i => i
|}.

(** A state with one open handle at address 7 on the inode at address 1,
    and memory filled with [xaa]. *)
Definition demo_state : kstate :=
  {| files := {[ 7 := mk_file 1 5 false ]}; mem := fun _ => xaa; calls := [] |}.

(** A second setting: a file of 700 bytes, so with a partial last sector,
    whose offsets map to sectors 0 and 1 up to the length and to no sector
    from the length on. *)
Definition demo_partial : Collaborators := {|
  BLOCK_SECTOR_SIZE := 512;
  byte_to_sector := fun _ p => if (0 <=? p) && (p <? 700) then p / 512 else -1;
  inode_length := fun _ => 700;
  sector_data := fun s i => byte_of_Z (16 * s + i);
  inode_read_at := fun _ _ _ _ m => (0, m);
  inode_write_at := fun _ _ _ _ _ => 0;
  inode_reopen := fun i => i
|}.



End File.

(** * Properties of the disk scheduler *)

Section DiskProperties.

Import Disk.

Lemma deadline_le_refl (a : disk_request) : deadline_le a a.
Proof. unfold deadline_le. lia. Qed.

Lemma deadline_le_trans (a b c : disk_request) :
  deadline_le a b -> deadline_le b c -> deadline_le a c.
Proof. unfold deadline_le. lia. Qed.

(** Inserting with [disk_request_compare] keeps an ascending queue
    ascending. *)
Lemma list_insert_ordered_sorted (q : list disk_request) (r : disk_request) :
  StronglySorted deadline_le q ->
  StronglySorted deadline_le (list_insert_ordered q r disk_request_compare).
Proof.
  induction 1 as [| e q Hq IH Hall]; simpl.
  - repeat constructor.
  - unfold disk_request_compare at 1.
    destruct (Z.ltb_spec (deadline r) (deadline e)) as [Hlt | Hge].
    + constructor; [constructor; assumption |].
      constructor; [unfold deadline_le; lia |].
      eapply Forall_impl; [| exact Hall].
      intros x Hx. unfold deadline_le in *. lia.
    + constructor; [exact IH |].
      clear IH Hq. induction q as [| x q IHq]; simpl.
      * repeat constructor. unfold deadline_le. lia.
      * inversion Hall; subst.
        destruct (disk_request_compare r x); repeat constructor;
          auto; unfold deadline_le; lia.
Qed.

Lemma filter_none {A : Type} (f : A -> bool) (l : list A) :
  (forall x, In x l -> f x = false) -> List.filter f l = [].
Proof.
  induction l as [| a l IH]; intros H; simpl; [reflexivity |].
  rewrite (H a (or_introl eq_refl)). apply IH.
  intros x Hx. apply H. right. exact Hx.
Qed.

(** The inserted request lands behind every queued request of its own
    deadline, and the others keep their order. *)
Lemma with_deadline_insert (d : Z) (q : list disk_request) (r : disk_request) :
  StronglySorted deadline_le q ->
  with_deadline d (list_insert_ordered q r disk_request_compare)
  = with_deadline d q ++ with_deadline d [r].
Proof.
  unfold with_deadline.
  induction 1 as [| e q Hq IH Hall]; simpl; [reflexivity |].
  unfold disk_request_compare at 1.
  destruct (Z.ltb_spec (deadline r) (deadline e)) as [Hlt | Hge].
  - change (List.filter (has_deadline d) (r :: e :: q))
      with (if has_deadline d r then r :: List.filter (has_deadline d) (e :: q)
            else List.filter (has_deadline d) (e :: q)).
    change (List.filter (has_deadline d) [r])
      with (if has_deadline d r then [r] else []).
    destruct (has_deadline d r) eqn:Hd; [| rewrite app_nil_r; reflexivity].
    apply Z.eqb_eq in Hd.
    assert (Hnone : List.filter (has_deadline d) (e :: q) = []).
    { apply filter_none. intros x Hx.
      assert (deadline_le e x) as Hex.
      { destruct Hx as [<- | Hx]; [apply deadline_le_refl |].
        rewrite Forall_forall in Hall. apply Hall, Hx. }
      unfold has_deadline, deadline_le in *.
      apply Z.eqb_neq. lia. }
    cbn [List.filter] in Hnone |- *. rewrite Hnone. reflexivity.
  - simpl. rewrite IH. simpl.
    destruct (has_deadline d e); reflexivity.
Qed.

Lemma list_insert_ordered_perm {A : Type} (q : list A) (r : A) less :
  Permutation (list_insert_ordered q r less) (q ++ [r]).
Proof.
  induction q as [| e q IH]; simpl; [reflexivity |].
  destruct (less r e).
  - change (r :: e :: q) with ([r] ++ (e :: q)).
    rewrite (app_comm_cons q [r] e). apply Permutation_app_comm.
  - constructor. exact IH.
Qed.

Lemma serviced_of_app (l1 l2 : list action) :
  serviced_of (l1 ++ l2) = serviced_of l1 ++ serviced_of l2.
Proof.
  induction l1 as [| [r | t] l1 IH]; simpl; rewrite ?IH; reflexivity.
Qed.

(** What one pass of the worker does to the queue and the service log. *)
Lemma disk_process_iteration_spec (st : sched) :
  serviced (disk_process_iteration st) = serviced st ++ take 1 (disk_queue st) /\
  disk_queue (disk_process_iteration st) = drop 1 (disk_queue st).
Proof.
  unfold disk_process_iteration, serviced.
  destruct (disk_queue st) as [| r q]; simpl;
    rewrite serviced_of_app; simpl; rewrite ?app_nil_r; auto.
Qed.

Lemma queue_inv_init : queue_inv [] disk_init.
Proof. repeat split; simpl; constructor. Qed.

Lemma queue_inv_schedule sub st req s w dt dl st' :
  queue_inv sub st ->
  disk_schedule_request req s w dt dl st = Ok st' ->
  queue_inv (sub ++ [mk_request s w dt dl]) st'.
Proof.
  intros (Hs & Hp & Hf) Hrun. unfold disk_schedule_request in Hrun.
  destruct (req =? NULL); [discriminate |].
  injection Hrun as <-. unfold queue_inv, serviced in *. simpl.
  split; [apply list_insert_ordered_sorted; exact Hs |]. split.
  - rewrite list_insert_ordered_perm, app_assoc.
    apply Permutation_app_tail. exact Hp.
  - intros d. unfold with_deadline in *.
    rewrite !List.filter_app.
    pose proof (with_deadline_insert d _ (mk_request s w dt dl) Hs) as Hi.
    unfold with_deadline in Hi. rewrite Hi.
    rewrite <- Hf, List.filter_app, app_assoc. reflexivity.
Qed.

Lemma queue_inv_process sub st :
  queue_inv sub st -> queue_inv sub (disk_process_iteration st).
Proof.
  intros (Hs & Hp & Hf).
  destruct (disk_process_iteration_spec st) as [Hsv Hq].
  unfold queue_inv. rewrite Hsv, Hq, <- app_assoc, take_drop.
  split; [| split; assumption].
  destruct (disk_queue st); simpl; [constructor |].
  inversion Hs; assumption.
Qed.

Lemma queue_inv_run evs : forall sub st st',
  queue_inv sub st -> run evs st = Ok st' ->
  queue_inv (sub ++ submitted evs) st'.
Proof.
  induction evs as [| e evs IH]; intros sub st st' Hinv Hrun; simpl in *.
  - injection Hrun as <-. rewrite app_nil_r. exact Hinv.
  - destruct e as [req s w dt dl |]; simpl in Hrun.
    + destruct (disk_schedule_request req s w dt dl st) as [st1 | | | |] eqn:E;
        try discriminate.
      change (sub ++ mk_request s w dt dl :: submitted evs)
        with (sub ++ [mk_request s w dt dl] ++ submitted evs).
      rewrite app_assoc.
      eapply IH; [| exact Hrun]. eapply queue_inv_schedule; eassumption.
    + eapply IH; [| exact Hrun]. apply queue_inv_process. exact Hinv.
Qed.

Lemma StronglySorted_take {A : Type} (R : A -> A -> Prop) (n : nat) (l : list A) :
  StronglySorted R l -> StronglySorted R (take n l).
Proof.
  intros H. revert n. induction H as [| x l Hl IH Hall]; intros [| n]; simpl;
    try constructor; auto.
  apply Forall_take. exact Hall.
Qed.

(** With no submission in between, [n] passes of the worker take the
    first [n] queued requests, front first. *)
Lemma run_process_only (n : nat) : forall st,
  exists st', run (repeat Process n) st = Ok st' /\
    serviced st' = serviced st ++ take n (disk_queue st) /\
    disk_queue st' = drop n (disk_queue st).
Proof.
  induction n as [| n IH]; intros st; simpl.
  - exists st. rewrite app_nil_r, drop_0. auto.
  - destruct (IH (disk_process_iteration st)) as (st' & Hrun & Hsv & Hq).
    destruct (disk_process_iteration_spec st) as [Hsv1 Hq1].
    exists st'. split; [exact Hrun |].
    rewrite Hsv, Hq, Hsv1, Hq1, <- app_assoc.
    destruct (disk_queue st); simpl; rewrite ?take_nil, ?drop_nil, ?drop_0, ?take_0; auto.
Qed.

(** C2: in every state the scheduler reaches from [disk_init] by
    enqueues ([disk_schedule_request]) and dequeues (passes of the worker
    loop) in any interleaving, the queue ascends by deadline (any [a]
    before [b] has [a.deadline <= b.deadline]); among requests of one
    deadline the order, serviced ones first and then the queue front to
    back, is the order of submission (stable, first in first out); the
    request at the front is no later than any other queued one; and from
    there the worker takes the queued requests front first, so in
    non-decreasing deadline order with ties in submission order. *)
Theorem disk_queue_deadline_order (evs : list event) (st : sched) :
  run evs disk_init = Ok st ->
  StronglySorted deadline_le (disk_queue st) /\
  (forall d, with_deadline d (serviced st ++ disk_queue st)
             = with_deadline d (submitted evs)) /\
  (forall r q', list_pop_front (disk_queue st) = Some (r, q') ->
                Forall (deadline_le r) q') /\
  (forall n, exists st',
      run (repeat Process n) st = Ok st' /\
      serviced st' = serviced st ++ take n (disk_queue st) /\
      disk_queue st' = drop n (disk_queue st) /\
      StronglySorted deadline_le (take n (disk_queue st)) /\
      forall d, with_deadline d (serviced st' ++ disk_queue st')
                = with_deadline d (submitted evs)).
Proof.
  intros Hrun.
  destruct (queue_inv_run evs [] disk_init st queue_inv_init Hrun)
    as (Hs & _ & Hf).
  simpl in Hf. repeat split; try assumption.
  - intros r q' Hpop. destruct (disk_queue st) as [| e q]; [discriminate |].
    injection Hpop as <- <-. inversion Hs; assumption.
  - intros n. destruct (run_process_only n st) as (st' & Hn & Hsv & Hq).
    exists st'. repeat split; try assumption.
    + apply StronglySorted_take. exact Hs.
    + intros d. rewrite Hsv, Hq, <- app_assoc, take_drop. apply Hf.
Qed.

(** C2 at a concrete run: [demo_events], which ends in [demo_sched]. *)
Lemma disk_queue_deadline_order_witness :
  run demo_events disk_init = Ok demo_sched /\
  StronglySorted deadline_le (disk_queue demo_sched) /\
  (forall d, with_deadline d (serviced demo_sched ++ disk_queue demo_sched)
             = with_deadline d (submitted demo_events)) /\
  (forall r q', list_pop_front (disk_queue demo_sched) = Some (r, q') ->
                Forall (deadline_le r) q') /\
  (forall n, exists st',
      run (repeat Process n) demo_sched = Ok st' /\
      serviced st' = serviced demo_sched ++ take n (disk_queue demo_sched) /\
      disk_queue st' = drop n (disk_queue demo_sched) /\
      StronglySorted deadline_le (take n (disk_queue demo_sched)) /\
      forall d, with_deadline d (serviced st' ++ disk_queue st')
                = with_deadline d (submitted demo_events)).
Proof.
  split; [reflexivity |].
  apply (disk_queue_deadline_order demo_events demo_sched). reflexivity.
Defined.

(** C9, what the code does: when [malloc] returns the null pointer,
    [disk_schedule_request] stores the fields through it; the call ends in
    a null dereference, for every argument and queue, and reports nothing
    to its caller. *)
Theorem disk_schedule_request_alloc_failure
    (sector : Z) (is_write : bool) (data deadline : Z) (st : sched) :
  disk_schedule_request NULL sector is_write data deadline st = NullDeref.
Proof. reflexivity. Qed.

(** When the allocation succeeds the request is queued and the call
    returns. *)
Lemma disk_schedule_request_alloc_success
    (req sector : Z) (is_write : bool) (data deadline : Z) (st : sched) :
  req <> NULL ->
  disk_schedule_request req sector is_write data deadline st
  = Ok {| disk_queue :=
            list_insert_ordered (disk_queue st)
              (mk_request sector is_write data deadline) disk_request_compare;
          worker_log := worker_log st |}.
Proof.
  intros Hreq. unfold disk_schedule_request.
  destruct (Z.eqb_spec req NULL); [contradiction | reflexivity].
Qed.

End DiskProperties.

(** * Properties of the file layer *)

Section FileProperties.

Import File.

Context {C : Collaborators}.

Lemma load_live (file : Z) (f : struct_file) (s : kstate) :
  file <> NULL -> files s !! file = Some f -> load file s = Ok (f, s).
Proof.
  intros Hn Hf. unfold load.
  destruct (Z.eqb_spec file NULL); [contradiction |]. rewrite Hf. reflexivity.
Qed.

Lemma store_live (file : Z) (f : struct_file) upd (s : kstate) :
  file <> NULL -> files s !! file = Some f ->
  store file upd s = Ok (tt, set_files (<[file := upd f]> (files s)) s).
Proof.
  intros Hn Hf. unfold store, bind. rewrite (load_live file f s Hn Hf). reflexivity.
Qed.

(** C5: [file_open] always returns; the result is null exactly when the
    inode argument is null or the allocation failed; on failure
    [inode_close] has been called on the inode argument (so a non-null
    inode is released) and the allocated object, if any, is freed; on
    success the result is the allocated handle, which holds the inode with
    [pos = 0] and [deny_write = false], no call was made and no other
    handle changed. *)
Theorem file_open_result (inode c : Z) (s : kstate) :
  exists r s', file_open inode c s = Ok (r, s') /\
    (r = NULL <-> inode = NULL \/ c = NULL) /\
    (r = NULL ->
       calls s' = calls s ++ [call_inode_close inode] /\
       files s' = (if c =? NULL then files s else delete c (files s)) /\
       mem s' = mem s) /\
    (r <> NULL ->
       r = c /\
       files s' = <[c := mk_file inode 0 false]> (files s) /\
       calls s' = calls s /\ mem s' = mem s).
Proof.
  unfold file_open, bind, calloc, free, do_call, ret.
  destruct (c =? NULL) eqn:Hc.
  - simpl. rewrite andb_false_r.
    eexists _, _. split; [reflexivity |]. simpl.
    apply Z.eqb_eq in Hc. repeat split; auto; try tauto.
  - destruct (inode =? NULL) eqn:Hi; simpl.
    + rewrite ?Hc. eexists _, _. split; [reflexivity |]. simpl.
      apply Z.eqb_eq in Hi. repeat split; auto; try tauto.
      apply delete_insert_eq.
    + rewrite ?Hc. simpl. apply Z.eqb_neq in Hc, Hi.
      erewrite store_live; [| assumption | simpl; apply lookup_insert_eq].
      erewrite store_live; [| assumption | simpl; apply lookup_insert_eq].
      erewrite store_live; [| assumption | simpl; apply lookup_insert_eq].
      eexists _, _. split; [reflexivity |]. simpl.
      rewrite !insert_insert_eq.
      repeat split; auto; try tauto.
Qed.

Lemma file_deny_write_live (file : Z) (f : struct_file) (s : kstate) :
  file <> NULL -> files s !! file = Some f ->
  file_deny_write file s =
    if deny_write f then Ok (tt, s)
    else Ok (tt, {| files := <[file := with_deny_write true f]> (files s);
                    mem := mem s;
                    calls := calls s ++ [call_inode_deny_write (inode f)] |}).
Proof.
  intros Hn Hf. unfold file_deny_write, bind, ASSERT.
  destruct (Z.eqb_spec file NULL); [contradiction |]. simpl.
  rewrite (load_live file f s Hn Hf).
  destruct (deny_write f); simpl; [reflexivity |].
  unfold bind. rewrite (store_live file f _ s Hn Hf). reflexivity.
Qed.

Lemma file_allow_write_live (file : Z) (f : struct_file) (s : kstate) :
  file <> NULL -> files s !! file = Some f ->
  file_allow_write file s =
    if deny_write f
    then Ok (tt, {| files := <[file := with_deny_write false f]> (files s);
                    mem := mem s;
                    calls := calls s ++ [call_inode_allow_write (inode f)] |})
    else Ok (tt, s).
Proof.
  intros Hn Hf. unfold file_allow_write, bind, ASSERT.
  destruct (Z.eqb_spec file NULL); [contradiction |]. simpl.
  rewrite (load_live file f s Hn Hf).
  destruct (deny_write f); simpl; [| reflexivity].
  unfold bind. rewrite (store_live file f _ s Hn Hf). reflexivity.
Qed.

Lemma net_denials_app (i : Z) (cs1 cs2 : list call) :
  net_denials i (cs1 ++ cs2) = net_denials i cs1 + net_denials i cs2.
Proof.
  induction cs1 as [| c cs1 IH]; simpl; [reflexivity |].
  destruct c; rewrite ?IH; lia.
Qed.

(** Any sequence of the two calls on a live handle returns, keeps the
    handle's inode and position, and changes the denials outstanding on
    the inode by the change of the handle's flag. *)
Lemma toggle_calls_net (file : Z) (ts : list toggle) : forall (f : struct_file) (s : kstate),
  file <> NULL -> files s !! file = Some f ->
  exists s' f', toggle_calls file ts s = Ok (tt, s') /\
    files s' !! file = Some f' /\ inode f' = inode f /\ pos f' = pos f /\
    mem s' = mem s /\
    net_denials (inode f) (calls s')
    = net_denials (inode f) (calls s) + Z.b2z (deny_write f') - Z.b2z (deny_write f).
Proof.
  induction ts as [| t ts IH]; intros f s Hn Hf; simpl.
  - exists s, f. repeat split; auto. lia.
  - unfold bind.
    assert (Hstep : exists s1 f1, toggle_call file t s = Ok (tt, s1) /\
              files s1 !! file = Some f1 /\ inode f1 = inode f /\ pos f1 = pos f /\
              mem s1 = mem s /\
              net_denials (inode f) (calls s1)
              = net_denials (inode f) (calls s) + Z.b2z (deny_write f1) - Z.b2z (deny_write f)).
    { destruct t; simpl;
        [rewrite (file_deny_write_live file f s Hn Hf)
        | rewrite (file_allow_write_live file f s Hn Hf)];
        destruct (deny_write f) eqn:Hd.
      - exists s, f. rewrite Hd. repeat split; auto. lia.
      - eexists _, (with_deny_write true f). split; [reflexivity |]. simpl.
        rewrite lookup_insert_eq, net_denials_app. simpl.
        rewrite Z.eqb_refl. repeat split; auto. lia.
      - eexists _, (with_deny_write false f). split; [reflexivity |]. simpl.
        rewrite lookup_insert_eq, net_denials_app. simpl.
        rewrite Z.eqb_refl. repeat split; auto. lia.
      - exists s, f. rewrite Hd. repeat split; auto. lia. }
    destruct Hstep as (s1 & f1 & -> & Hf1 & Hi1 & Hp1 & Hm1 & Hnet1).
    destruct (IH f1 s1 Hn Hf1) as (s' & f' & Hrun & Hf' & Hi' & Hp' & Hm' & Hnet').
    exists s', f'. rewrite Hi1 in Hnet'.
    repeat split; try assumption; try congruence. lia.
Qed.

(** ** The loop of [file_read_at] *)

Lemma file_read_at_iteration_eq (inode : Z) (v : locals) (s : kstate) :
  file_read_at_iteration inode v s =
    if continues inode v
    then Ok (Some (next_locals inode v), next_state inode v s)
    else Ok (None, s).
Proof.
  unfold file_read_at_iteration, continues, next_locals, next_state,
    chunk_size_of, sector_ofs_of, sector_idx_of.
  destruct (size v >? 0); simpl; [| reflexivity].
  destruct (to_u32 (byte_to_sector inode (file_ofs v)) =? to_u32 (-1));
    simpl; [reflexivity |].
  match goal with |- context [?c <=? 0] => destruct (c <=? 0) end;
    reflexivity.
Qed.

Lemma file_read_at_loop_eq (fuel : nat) (inode : Z) (v : locals) (s : kstate) :
  file_read_at_loop fuel inode v s =
    if continues inode v
    then match fuel with
         | O => OutOfFuel
         | S fuel' =>
             file_read_at_loop fuel' inode (next_locals inode v) (next_state inode v s)
         end
    else Ok (bytes_read v, s).
Proof.
  destruct fuel; simpl; unfold bind; rewrite file_read_at_iteration_eq;
    destruct (continues inode v); reflexivity.
Qed.

Lemma to_s32_id (z : Z) : in_s32 z -> to_s32 z = z.
Proof.
  unfold in_s32, to_s32, min_signed, max_signed, modulus. intros H.
  rewrite Z.mod_small; lia.
Qed.

Lemma to_s32_le (z : Z) : 0 <= z -> to_s32 z <= z.
Proof.
  unfold to_s32, modulus. intros H.
  pose proof (Z.mod_le (z + 2 ^ 31) (2 ^ 32)). lia.
Qed.

Lemma to_s32_range (z : Z) : in_s32 (to_s32 z).
Proof.
  unfold in_s32, to_s32, min_signed, max_signed, modulus.
  pose proof (Z.mod_pos_bound (z + 2 ^ 31) (2 ^ 32)). lia.
Qed.

(** [chunk_size] is the least of the three budgets. *)
Lemma chunk_size_of_min (inode : Z) (v : locals) :
  chunk_size_of inode v
  = Z.min (size v)
      (Z.min (to_s32 (inode_length inode - file_ofs v))
             (to_s32 (BLOCK_SECTOR_SIZE - sector_ofs_of v))).
Proof.
  unfold chunk_size_of. cbv zeta.
  destruct (Z.ltb_spec (to_s32 (inode_length inode - file_ofs v))
                       (to_s32 (BLOCK_SECTOR_SIZE - sector_ofs_of v)));
    match goal with |- context [size v <? ?m] => destruct (Z.ltb_spec (size v) m) end;
    lia.
Qed.

(** A pass that runs to its end copies at least one byte and no more than
    were asked for. *)
Lemma continues_chunk (inode : Z) (v : locals) :
  continues inode v = true ->
  0 < size v /\ 0 < chunk_size_of inode v <= size v /\
  sector_idx_of inode v <> to_u32 (-1).
Proof.
  unfold continues. intros H.
  apply andb_true_iff in H as [H Hc]. apply andb_true_iff in H as [Hs Hx].
  apply negb_true_iff, Z.leb_gt in Hc. apply negb_true_iff, Z.eqb_neq in Hx.
  apply Z.gtb_lt in Hs.
  repeat split; try assumption. unfold chunk_size_of in *.
  cbv zeta in *.
  match goal with |- context [size v <? ?m] => destruct (Z.ltb_spec (size v) m) end; lia.
Qed.

(** The loop returns within [size] passes, and leaves the handles as they
    were. *)
Lemma file_read_at_loop_total (fuel : nat) : forall (inode : Z) (v : locals) (s : kstate),
  (Z.to_nat (size v) <= fuel)%nat ->
  exists n s', file_read_at_loop fuel inode v s = Ok (n, s') /\ files s' = files s.
Proof.
  induction fuel as [| fuel IH]; intros inode v s Hfuel;
    rewrite file_read_at_loop_eq; destruct (continues inode v) eqn:Hc;
    try (eexists _, _; split; reflexivity).
  - apply continues_chunk in Hc. lia.
  - destruct (continues_chunk _ _ Hc) as (Hs & Hk & _).
    destruct (IH inode (next_locals inode v) (next_state inode v s))
      as (n & s' & Hrun & Hfiles).
    + simpl. pose proof (to_s32_le (size v - chunk_size_of inode v)). lia.
    + exists n, s'. split; [exact Hrun |]. rewrite Hfiles. reflexivity.
Qed.

(** The state a returning loop ends in is one the passes lead to, at
    which no further pass runs, and the result is [bytes_read] there. *)
Lemma file_read_at_loop_iterates (inode : Z) (v0 : locals) (s0 : kstate) (fuel : nat) :
  forall v s n s',
    iterates inode v0 s0 v s ->
    file_read_at_loop fuel inode v s = Ok (n, s') ->
    exists v', iterates inode v0 s0 v' s' /\ continues inode v' = false /\
               n = bytes_read v'.
Proof.
  induction fuel as [| fuel IH]; intros v s n s' Hit; 
    rewrite file_read_at_loop_eq; destruct (continues inode v) eqn:Hc; intros Hrun;
    try discriminate.
  - injection Hrun as <- <-. eauto.
  - eapply IH; [| exact Hrun]. econstructor; [exact Hit |].
    rewrite file_read_at_iteration_eq, Hc. reflexivity.
  - injection Hrun as <- <-. eauto.
Qed.

Lemma iterates_inv (inode : Z) (v0 : locals) (s0 : kstate) (v : locals) (s : kstate) :
  iterates inode v0 s0 v s ->
  (v = v0 /\ s = s0) \/
  exists v1 s1, iterates inode v0 s0 v1 s1 /\ continues inode v1 = true /\
                v = next_locals inode v1 /\ s = next_state inode v1 s1.
Proof.
  intros [| v1 s1 v' s' Hit Hstep]; [left; auto | right].
  rewrite file_read_at_iteration_eq in Hstep.
  destruct (continues inode v1) eqn:Hc; [| discriminate].
  injection Hstep as <- <-. exists v1, s1. auto.
Qed.

(** Counting: the bytes read and the bytes still asked for add up to the
    request, and [buffer_] is [bytes_read] past the caller's buffer. *)
Lemma iterates_counts (inode buffer ofs size0 : Z) (s0 : kstate) (v : locals) (s : kstate) :
  0 <= size0 <= max_signed ->
  iterates inode (mk_locals buffer ofs size0 0) s0 v s ->
  0 <= bytes_read v /\ 0 <= size v /\ bytes_read v + size v = size0 /\
  buffer_ v = buffer + bytes_read v.
Proof.
  intros Hsz Hit. induction Hit as [| v1 s1 v' s' Hit IH Hstep].
  - simpl. lia.
  - rewrite file_read_at_iteration_eq in Hstep.
    destruct (continues inode v1) eqn:Hc; [| discriminate].
    injection Hstep as <- <-.
    destruct (continues_chunk _ _ Hc) as (Hs & Hk & _). simpl.
    unfold max_signed in *.
    rewrite !to_s32_id by (unfold in_s32, min_signed, max_signed; lia). lia.
Qed.

(** Offsets: [file_ofs] is [bytes_read] past the offset asked for, and
    never passes the end of the inode. *)
Lemma iterates_offsets (inode buffer ofs size0 : Z) (s0 : kstate) (v : locals) (s : kstate) :
  0 <= inode_length inode <= max_signed ->
  0 <= size0 <= max_signed ->
  in_s32 ofs ->
  inode_length inode - ofs <= max_signed ->
  iterates inode (mk_locals buffer ofs size0 0) s0 v s ->
  file_ofs v = ofs + bytes_read v /\
  bytes_read v <= Z.max 0 (inode_length inode - ofs).
Proof.
  intros Hlen Hsz Hofs Hno Hit.
  induction Hit as [| v1 s1 v' s' Hit IH Hstep].
  - simpl. lia.
  - pose proof (iterates_counts _ _ _ _ _ _ _ Hsz Hit) as (Hb & Hs1 & Hsum & _).
    rewrite file_read_at_iteration_eq in Hstep.
    destruct (continues inode v1) eqn:Hc; [| discriminate].
    injection Hstep as <- <-.
    destruct (continues_chunk _ _ Hc) as (Hs & Hk & _).
    destruct IH as [IHo IHb]. simpl.
    assert (Hle : chunk_size_of inode v1 <= inode_length inode - file_ofs v1).
    { rewrite chunk_size_of_min.
      rewrite (to_s32_id (inode_length inode - file_ofs v1))
        by (unfold in_s32, min_signed, max_signed in *; lia).
      lia. }
    unfold in_s32, min_signed, max_signed in *.
    rewrite !to_s32_id by (unfold in_s32, min_signed, max_signed; lia). lia.
Qed.

Lemma sector_left_pos (v : locals) :
  0 < BLOCK_SECTOR_SIZE <= 2 ^ 30 ->
  to_s32 (BLOCK_SECTOR_SIZE - sector_ofs_of v) = BLOCK_SECTOR_SIZE - sector_ofs_of v /\
  0 < BLOCK_SECTOR_SIZE - sector_ofs_of v < 2 * BLOCK_SECTOR_SIZE.
Proof.
  intros Hb. unfold sector_ofs_of.
  assert (Hnz : BLOCK_SECTOR_SIZE <> 0) by lia.
  pose proof (Z.rem_bound_abs (file_ofs v) BLOCK_SECTOR_SIZE Hnz) as Hr.
  assert (Hin : 0 < BLOCK_SECTOR_SIZE - Z.rem (file_ofs v) BLOCK_SECTOR_SIZE
                < 2 * BLOCK_SECTOR_SIZE) by lia.
  split; [| exact Hin].
  apply to_s32_id. unfold in_s32, min_signed, max_signed. lia.
Qed.

Lemma continues_false (inode : Z) (v : locals) :
  continues inode v = false ->
  size v <= 0 \/ sector_idx_of inode v = to_u32 (-1) \/ chunk_size_of inode v <= 0.
Proof.
  unfold continues. intros H.
  destruct (Z.gtb_spec (size v) 0); [| left; lia].
  destruct (Z.eqb_spec (sector_idx_of inode v) (to_u32 (-1))); [right; left; assumption |].
  destruct (Z.leb_spec (chunk_size_of inode v) 0); [right; right; assumption |].
  discriminate.
Qed.

(** The count [file_read_at] returns: the bytes asked for, cut at the end
    of the inode; nothing when the bytes left in the inode are more than
    an [off_t] holds. *)
Lemma file_read_at_loop_count (inode buffer ofs size0 : Z) (s : kstate)
    (fuel : nat) (n : Z) (s' : kstate) :
  0 < BLOCK_SECTOR_SIZE <= 2 ^ 30 ->
  0 <= inode_length inode <= max_signed ->
  0 <= size0 <= max_signed ->
  in_s32 ofs ->
  (forall o, ofs <= o < inode_length inode ->
             to_u32 (byte_to_sector inode o) <> to_u32 (-1)) ->
  file_read_at_loop fuel inode (mk_locals buffer ofs size0 0) s = Ok (n, s') ->
  (inode_length inode - ofs <= max_signed ->
   n = Z.min size0 (Z.max 0 (inode_length inode - ofs))) /\
  (max_signed < inode_length inode - ofs -> n = 0).
Proof.
  intros Hbss Hlen Hsz Hofs Hmap Hrun. split; intros Hno.
  - destruct (file_read_at_loop_iterates inode _ s fuel _ _ _ _
                (iterates_start _ _ _) Hrun) as (v' & Hit & Hstop & ->).
    pose proof (iterates_counts _ _ _ _ _ _ _ Hsz Hit) as (Hb & Hs & Hsum & _).
    pose proof (iterates_offsets _ _ _ _ _ _ _ Hlen Hsz Hofs Hno Hit) as (Ho & Hmax).
    destruct (continues_false _ _ Hstop) as [Hx | [Hx | Hx]].
    + lia.
    + assert (~ (ofs <= file_ofs v' < inode_length inode)) as Hout.
      { intros Hin. apply (Hmap _ Hin). exact Hx. }
      lia.
    + rewrite chunk_size_of_min in Hx.
      destruct (sector_left_pos v' Hbss) as [Hsl1 Hsl]. rewrite Hsl1 in Hx.
      rewrite to_s32_id in Hx
        by (unfold in_s32, min_signed, max_signed in *; lia).
      lia.
  - rewrite file_read_at_loop_eq in Hrun.
    assert (Hstop : continues inode (mk_locals buffer ofs size0 0) = false).
    { unfold continues.
      assert (chunk_size_of inode (mk_locals buffer ofs size0 0) <= 0) as Hk.
      { rewrite chunk_size_of_min. simpl.
        assert (to_s32 (inode_length inode - ofs) < 0); [| lia].
        unfold to_s32, modulus, in_s32, min_signed, max_signed in *.
        replace (inode_length inode - ofs + 2 ^ 31)
          with ((inode_length inode - ofs - 2 ^ 31) + 1 * 2 ^ 32) by lia.
        rewrite Z.mod_add by lia. rewrite Z.mod_small; lia. }
      apply Z.leb_le in Hk. rewrite Hk. simpl. apply andb_false_r. }
    rewrite Hstop in Hrun. injection Hrun as <- <-. reflexivity.
Qed.

(** C3: on a live handle of an inode whose offsets from [file_ofs] up to
    its length all map to a sector, [file_read_at] with [size >= 0]
    returns a count [n] such that: a request of zero bytes gives 0; a
    request that starts at or past the end of the inode gives 0; a request
    that starts inside the inode and runs past its end gives exactly
    [inode_length - file_ofs]; in every case [n] is at most the size asked
    for and at most the bytes between [file_ofs] and the end. *)
Theorem file_read_at_truncates
    (file buffer size file_ofs : Z) (f : struct_file) (s : kstate) :
  file <> NULL -> files s !! file = Some f ->
  0 < BLOCK_SECTOR_SIZE <= 2 ^ 30 ->
  0 <= inode_length (inode f) <= max_signed ->
  0 <= size <= max_signed ->
  in_s32 file_ofs ->
  (forall o, file_ofs <= o < inode_length (inode f) ->
             to_u32 (byte_to_sector (inode f) o) <> to_u32 (-1)) ->
  exists n s', file_read_at file buffer size file_ofs s = Ok (n, s') /\
    (size = 0 -> n = 0) /\
    (inode_length (inode f) <= file_ofs -> n = 0) /\
    (file_ofs < inode_length (inode f) ->
     inode_length (inode f) < file_ofs + size ->
     n = inode_length (inode f) - file_ofs) /\
    0 <= n <= size /\
    n <= Z.max 0 (inode_length (inode f) - file_ofs).
Proof.
  intros Hn Hf Hbss Hlen Hsz Hofs Hmap.
  unfold file_read_at, bind. rewrite (load_live file f s Hn Hf).
  destruct (file_read_at_loop_total (Z.to_nat size) (inode f)
              (mk_locals buffer file_ofs size 0) s (le_n _))
    as (n & s' & Hrun & _).
  exists n, s'. split; [exact Hrun |].
  destruct (file_read_at_loop_count _ _ _ _ _ _ _ _ Hbss Hlen Hsz Hofs Hmap Hrun)
    as [Hfit Hover].
  unfold in_s32, min_signed, max_signed in *.
  destruct (Z.le_gt_cases (inode_length (inode f) - file_ofs) (2 ^ 31 - 1)) as [Hc | Hc].
  - specialize (Hfit Hc). lia.
  - specialize (Hover ltac:(lia)). lia.
Qed.

(** Calls: every pass adds a fetch and, right after it, a hint that is
    given the sector just fetched. *)
Lemma iterates_calls (inode : Z) (v0 : locals) (s0 : kstate) (v : locals) (s : kstate) :
  iterates inode v0 s0 v s ->
  exists l, calls s = calls s0 ++ flat_map pass_calls l.
Proof.
  induction 1 as [| v1 s1 v' s' Hit [l IH] Hstep].
  - exists []. simpl. rewrite app_nil_r. reflexivity.
  - rewrite file_read_at_iteration_eq in Hstep.
    destruct (continues inode v1); [| discriminate].
    injection Hstep as <- <-.
    exists (l ++ [(sector_idx_of inode v1, buffer_ v1)]).
    simpl. rewrite IH, flat_map_app. simpl.
    rewrite <- !app_assoc. reflexivity.
Qed.

Lemma fetched_sectors_pass_calls (l : list (Z * Z)) :
  fetched_sectors (flat_map pass_calls l) = map fst l.
Proof. induction l as [| p l IH]; simpl; rewrite ?IH; reflexivity. Qed.

Lemma hinted_sectors_pass_calls (l : list (Z * Z)) :
  hinted_sectors (flat_map pass_calls l) = map fst l.
Proof. induction l as [| p l IH]; simpl; rewrite ?IH; reflexivity. Qed.

(** The hints of a call of [file_read_at] name, one for one and in order,
    the sectors the call fetched. *)
Lemma file_read_at_hints_are_fetched
    (file buffer size file_ofs : Z) (f : struct_file) (s : kstate) :
  file <> NULL -> files s !! file = Some f ->
  exists n s' cs, file_read_at file buffer size file_ofs s = Ok (n, s') /\
    calls s' = calls s ++ cs /\
    hinted_sectors cs = fetched_sectors cs /\
    length cs = (2 * length (fetched_sectors cs))%nat.
Proof.
  intros Hn Hf. unfold file_read_at, bind. rewrite (load_live file f s Hn Hf).
  destruct (file_read_at_loop_total (Z.to_nat size) (inode f)
              (mk_locals buffer file_ofs size 0) s (le_n _))
    as (n & s' & Hrun & _).
  destruct (file_read_at_loop_iterates _ _ s _ _ _ _ _
              (iterates_start _ _ _) Hrun) as (v' & Hit & _ & _).
  destruct (iterates_calls _ _ _ _ _ Hit) as [l Hl].
  exists n, s', (flat_map pass_calls l). split; [exact Hrun |].
  split; [exact Hl |].
  rewrite hinted_sectors_pass_calls, fetched_sectors_pass_calls.
  split; [reflexivity |].
  rewrite length_map. clear. induction l as [| p l IH]; simpl; lia.
Qed.

(** What a pass does to memory: the whole sector, from its byte 0, lands
    at [buffer_]. *)
Lemma next_state_mem (inode : Z) (v : locals) (s : kstate) :
  (forall i, 0 <= i < BLOCK_SECTOR_SIZE ->
     mem (next_state inode v s) (buffer_ v + i) = sector_data (sector_idx_of inode v) i) /\
  (forall a, ~ (buffer_ v <= a < buffer_ v + BLOCK_SECTOR_SIZE) ->
     mem (next_state inode v s) a = mem s a).
Proof.
  split.
  - intros i Hi. simpl.
    destruct (Z.leb_spec (buffer_ v) (buffer_ v + i)); [| lia].
    destruct (Z.ltb_spec (buffer_ v + i) (buffer_ v + BLOCK_SECTOR_SIZE)); [| lia].
    simpl. f_equal. lia.
  - intros a Ha. simpl.
    destruct (Z.leb_spec (buffer_ v) a); simpl; [| reflexivity].
    destruct (Z.ltb_spec a (buffer_ v + BLOCK_SECTOR_SIZE)); [lia | reflexivity].
Qed.

(** The first pass of a call shows at the head of what the call adds to
    the calls. *)
Lemma iterates_first_call (inode : Z) (v0 : locals) (s0 : kstate) (v : locals) (s : kstate) :
  iterates inode v0 s0 v s ->
  (v = v0 /\ s = s0) \/
  exists cs, calls s = calls s0
                       ++ call_buffer_cache_read (sector_idx_of inode v0) (buffer_ v0)
                       :: call_cache_read_ahead (sector_idx_of inode v0) :: cs.
Proof.
  induction 1 as [| v1 s1 v' s' Hit IH Hstep]; [left; auto | right].
  rewrite file_read_at_iteration_eq in Hstep.
  destruct (continues inode v1); [| discriminate].
  injection Hstep as <- <-. simpl.
  destruct IH as [[-> ->] | [cs Hcs]].
  - exists []. rewrite <- app_assoc. reflexivity.
  - exists (cs ++ [call_buffer_cache_read (sector_idx_of inode v1) (buffer_ v1);
                   call_cache_read_ahead (sector_idx_of inode v1)]).
    rewrite Hcs, <- !app_assoc. reflexivity.
Qed.

(** C10: for a call of [file_read_at] on a live handle with
    [0 <= size] of which at least one pass runs ([size > 0], [file_ofs]
    maps to a sector and the first chunk is positive: [continues] at the
    variables the call starts with).  The call returns the count [n] and
    the state [s'] in which its chain of passes ends, and [0 < n <= size].
    The first thing it does is fetch the sector of [file_ofs] into the
    caller's buffer itself.  Every pass of the chain passes the caller's
    buffer at offset [bytes_read] to the cache fetch, which stores the
    whole sector there, byte [i] of the sector at byte [bytes_read + i] of
    the buffer for every [i] below [BLOCK_SECTOR_SIZE] (not the
    [chunk_size] bytes from [sector_ofs] on), changes no other byte, and
    advances by [chunk_size] only.  The last pass leads to [s']: with
    [chunk] its chunk size, the whole last sector lies at offset
    [n - chunk] of the buffer in [s'], so the bytes of the buffer from [n]
    up to [n - chunk + BLOCK_SECTOR_SIZE], which lie past the count
    returned, hold bytes [chunk], [chunk + 1], ... of that sector. *)
Theorem file_read_at_stores_whole_sector
    (file buffer size file_ofs : Z) (f : struct_file) (s : kstate) :
  file <> NULL -> files s !! file = Some f ->
  0 <= size <= max_signed ->
  continues (inode f) (mk_locals buffer file_ofs size 0) = true ->
  exists n s' v' v1 s1 cs,
    file_read_at file buffer size file_ofs s = Ok (n, s') /\
    iterates (inode f) (mk_locals buffer file_ofs size 0) s v' s' /\
    continues (inode f) v' = false /\
    n = bytes_read v' /\
    0 < n <= size /\
    calls s' = calls s
               ++ call_buffer_cache_read
                    (to_u32 (byte_to_sector (inode f) file_ofs)) buffer
               :: call_cache_read_ahead (to_u32 (byte_to_sector (inode f) file_ofs))
               :: cs /\
    (forall v2 s2,
       iterates (inode f) (mk_locals buffer file_ofs size 0) s v2 s2 ->
       continues (inode f) v2 = true ->
       exists v3 s3,
         file_read_at_iteration (inode f) v2 s2 = Ok (Some v3, s3) /\
         iterates (inode f) (mk_locals buffer file_ofs size 0) s v3 s3 /\
         bytes_read v3 = bytes_read v2 + chunk_size_of (inode f) v2 /\
         calls s3 = calls s2
                    ++ [call_buffer_cache_read (sector_idx_of (inode f) v2)
                          (buffer + bytes_read v2);
                        call_cache_read_ahead (sector_idx_of (inode f) v2)] /\
         (forall i, 0 <= i < BLOCK_SECTOR_SIZE ->
            mem s3 (buffer + bytes_read v2 + i)
            = sector_data (sector_idx_of (inode f) v2) i) /\
         (forall a, ~ (buffer + bytes_read v2 <= a
                       < buffer + bytes_read v2 + BLOCK_SECTOR_SIZE) ->
            mem s3 a = mem s2 a)) /\
    iterates (inode f) (mk_locals buffer file_ofs size 0) s v1 s1 /\
    file_read_at_iteration (inode f) v1 s1 = Ok (Some v', s') /\
    n = bytes_read v1 + chunk_size_of (inode f) v1 /\
    0 < chunk_size_of (inode f) v1 /\
    (forall i, 0 <= i < BLOCK_SECTOR_SIZE ->
       mem s' (buffer + (n - chunk_size_of (inode f) v1) + i)
       = sector_data (sector_idx_of (inode f) v1) i) /\
    (forall j, n <= j < n - chunk_size_of (inode f) v1 + BLOCK_SECTOR_SIZE ->
       mem s' (buffer + j)
       = sector_data (sector_idx_of (inode f) v1) (j - bytes_read v1)).
Proof.
  intros Hn Hf Hsz Hc0.
  unfold file_read_at, bind. rewrite (load_live file f s Hn Hf).
  destruct (file_read_at_loop_total (Z.to_nat size) (inode f)
              (mk_locals buffer file_ofs size 0) s (le_n _))
    as (n & s' & Hrun & _).
  destruct (file_read_at_loop_iterates _ _ s _ _ _ _ _
              (iterates_start _ _ _) Hrun) as (v' & Hit & Hstop & Hres).
  destruct (iterates_inv _ _ _ _ _ Hit)
    as [[Hv _] | (v1 & s1 & Hit1 & Hc1 & Hv & Hs')];
    [rewrite Hv, Hc0 in Hstop; discriminate |].
  destruct (iterates_first_call _ _ _ _ _ Hit) as [[Hv0 _] | [cs Hcs]];
    [rewrite Hv0, Hc0 in Hstop; discriminate |].
  pose proof (iterates_counts _ _ _ _ _ _ _ Hsz Hit) as (Hb' & Hs0' & Hsum' & _).
  pose proof (iterates_counts _ _ _ _ _ _ _ Hsz Hit1) as (Hb1 & Hs1 & Hsum1 & Hbuf1).
  destruct (continues_chunk _ _ Hc1) as (_ & Hk1 & _).
  assert (Hnew : bytes_read v' = bytes_read v1 + chunk_size_of (inode f) v1).
  { rewrite Hv. simpl. apply to_s32_id.
    unfold in_s32, min_signed, max_signed in *. lia. }
  assert (Hlast : file_read_at_iteration (inode f) v1 s1 = Ok (Some v', s')).
  { rewrite file_read_at_iteration_eq, Hc1, Hv, Hs'. reflexivity. }
  destruct (next_state_mem (inode f) v1 s1) as [Hin1 _].
  rewrite Hbuf1, <- Hs' in Hin1.
  exists n, s', v', v1, s1, cs.
  split; [exact Hrun |]. split; [exact Hit |]. split; [exact Hstop |].
  split; [exact Hres |]. split; [lia |]. split; [exact Hcs |].
  split; [| split; [exact Hit1 | split; [exact Hlast | split; [lia | split; [lia |]]]]].
  - intros v2 s2 Hit2 Hc2.
    pose proof (iterates_counts _ _ _ _ _ _ _ Hsz Hit2) as (Hb & Hs & Hsum & Hbuf).
    destruct (continues_chunk _ _ Hc2) as (_ & Hk & _).
    exists (next_locals (inode f) v2), (next_state (inode f) v2 s2).
    assert (Hstep : file_read_at_iteration (inode f) v2 s2
                    = Ok (Some (next_locals (inode f) v2), next_state (inode f) v2 s2)).
    { rewrite file_read_at_iteration_eq, Hc2. reflexivity. }
    destruct (next_state_mem (inode f) v2 s2) as [Hin Hout].
    rewrite Hbuf in Hin, Hout.
    split; [exact Hstep |].
    split; [exact (iterates_next _ _ _ _ _ _ _ Hit2 Hstep) |].
    split; [| split; [| split]]; try assumption.
    + simpl. apply to_s32_id.
      unfold in_s32, min_signed, max_signed in *. lia.
    + simpl. rewrite Hbuf, <- app_assoc. reflexivity.
  - split.
    + intros i Hi. rewrite <- (Hin1 i Hi). f_equal. lia.
    + intros j Hj.
      rewrite <- (Hin1 (j - bytes_read v1)) by lia. f_equal. lia.
Qed.

(** A read of two bytes that starts at the last byte of a sector: the
    count is 2, but the first byte delivered is byte 0 of the first sector
    (not its last byte), and the second is byte 0 of the second sector. *)
Lemma file_read_at_across_boundary
    (file buffer : Z) (f : struct_file) (s : kstate) :
  file <> NULL -> files s !! file = Some f ->
  2 <= BLOCK_SECTOR_SIZE <= 2 ^ 30 ->
  BLOCK_SECTOR_SIZE + 1 <= inode_length (inode f) <= max_signed ->
  to_u32 (byte_to_sector (inode f) (BLOCK_SECTOR_SIZE - 1)) <> to_u32 (-1) ->
  to_u32 (byte_to_sector (inode f) BLOCK_SECTOR_SIZE) <> to_u32 (-1) ->
  exists s',
    file_read_at file buffer 2 (BLOCK_SECTOR_SIZE - 1) s = Ok (2, s') /\
    mem s' buffer
    = sector_data (to_u32 (byte_to_sector (inode f) (BLOCK_SECTOR_SIZE - 1))) 0 /\
    mem s' (buffer + 1)
    = sector_data (to_u32 (byte_to_sector (inode f) BLOCK_SECTOR_SIZE)) 0 /\
    file_byte (inode f) (BLOCK_SECTOR_SIZE - 1)
    = sector_data (to_u32 (byte_to_sector (inode f) (BLOCK_SECTOR_SIZE - 1)))
        (BLOCK_SECTOR_SIZE - 1).
Proof.
  intros Hn Hf Hbss Hlen Ha Hb.
  set (B := BLOCK_SECTOR_SIZE) in *.
  unfold file_read_at, bind. rewrite (load_live file f s Hn Hf).
  set (v0 := mk_locals buffer (B - 1) 2 0).
  set (v1 := mk_locals (buffer + 1) B 1 1).
  set (v2 := mk_locals (buffer + 2) (B + 1) 0 2).
  unfold max_signed in Hlen.
  assert (K0 : chunk_size_of (inode f) v0 = 1).
  { rewrite chunk_size_of_min. unfold sector_ofs_of. simpl. fold B.
    rewrite Z.rem_small by lia.
    rewrite !to_s32_id by (unfold in_s32, min_signed, max_signed; lia). lia. }
  assert (K1 : chunk_size_of (inode f) v1 = 1).
  { rewrite chunk_size_of_min. unfold sector_ofs_of. simpl. fold B.
    rewrite Z.rem_same by lia.
    rewrite !to_s32_id by (unfold in_s32, min_signed, max_signed; lia). lia. }
  assert (C0 : continues (inode f) v0 = true).
  { unfold continues. rewrite K0. unfold sector_idx_of. simpl. fold B.
    apply Z.eqb_neq in Ha. rewrite Ha. reflexivity. }
  assert (C1 : continues (inode f) v1 = true).
  { unfold continues. rewrite K1. unfold sector_idx_of. simpl. fold B.
    apply Z.eqb_neq in Hb. rewrite Hb. reflexivity. }
  assert (N0 : next_locals (inode f) v0 = v1).
  { unfold next_locals. rewrite K0. simpl. unfold v1. f_equal;
      rewrite ?to_s32_id by (unfold in_s32, min_signed, max_signed; lia); lia. }
  assert (N1 : next_locals (inode f) v1 = v2).
  { unfold next_locals. rewrite K1. simpl. unfold v2. f_equal;
      rewrite ?to_s32_id by (unfold in_s32, min_signed, max_signed; lia); lia. }
  change (Z.to_nat 2) with 2%nat.
  rewrite file_read_at_loop_eq, C0, N0.
  rewrite file_read_at_loop_eq, C1, N1.
  rewrite file_read_at_loop_eq. change (continues (inode f) v2) with false.
  eexists. split; [reflexivity |].
  destruct (next_state_mem (inode f) v0 s) as [Hin0 _].
  destruct (next_state_mem (inode f) v1 (next_state (inode f) v0 s)) as [Hin1 Hout1].
  split; [| split].
  - rewrite Hout1 by (simpl; lia).
    specialize (Hin0 0 ltac:(fold B; lia)).
    simpl buffer_ in Hin0. rewrite Z.add_0_r in Hin0. exact Hin0.
  - specialize (Hin1 0 ltac:(fold B; lia)).
    simpl buffer_ in Hin1. rewrite Z.add_0_r in Hin1. exact Hin1.
  - unfold file_byte. fold B. rewrite Z.mod_small by lia. reflexivity.
Qed.

(** Neither [file_read_at] nor [file_write_at] assigns to a field of a
    [struct file]: on a live handle both return, and the fields on record
    are as before.  (What the stores of [file_read_at] through the buffer
    pointer do to an object that lies behind the buffer is not on that
    record; the overrun example below shows it in [mem].) *)
Lemma file_read_at_write_at_frame
    (file buffer size file_ofs : Z) (f : struct_file) (s : kstate) :
  file <> NULL -> files s !! file = Some f ->
  (exists n s', file_read_at file buffer size file_ofs s = Ok (n, s') /\
                files s' = files s /\ files s' !! file = Some f) /\
  (exists n s', file_write_at file buffer size file_ofs s = Ok (n, s') /\
                files s' = files s /\ files s' !! file = Some f).
Proof.
  intros Hn Hf. split.
  - unfold file_read_at, bind. rewrite (load_live file f s Hn Hf).
    destruct (file_read_at_loop_total (Z.to_nat size) (inode f)
                (mk_locals buffer file_ofs size 0) s (le_n _))
      as (n & s' & Hrun & Hfiles).
    exists n, s'. rewrite Hfiles. auto.
  - unfold file_write_at, bind, do_call. rewrite (load_live file f s Hn Hf).
    eexists _, _. split; [reflexivity |]. simpl. auto.
Qed.

(** By contrast [file_read] moves the position by the count it returns. *)
Lemma file_read_advances_pos (file buffer size : Z) (f : struct_file) (s : kstate) :
  file <> NULL -> files s !! file = Some f ->
  exists n s', file_read file buffer size s = Ok (n, s') /\
    n = fst (inode_read_at (inode f) buffer size (pos f) (mem s)) /\
    files s' !! file = Some (with_pos (to_s32 (pos f + n)) f).
Proof.
  intros Hn Hf. unfold file_read, bind, do_call.
  rewrite (load_live file f s Hn Hf).
  destruct (inode_read_at (inode f) buffer size (pos f) (mem (log_call _ s)))
    as [n m] eqn:E.
  erewrite store_live; [| assumption | simpl; exact Hf].
  eexists _, _. split; [reflexivity |]. simpl in *. rewrite E. simpl.
  rewrite lookup_insert_eq. auto.
Qed.

(** C6: on a live handle, [file_deny_write] calls [inode_deny_write]
    (once) exactly when the handle's [deny_write] is false, and
    [file_allow_write] calls [inode_allow_write] (once) exactly when it is
    true; a redundant call leaves the whole state, so the handle and the
    calls made, as it was; calling either twice is calling it once; and
    after any sequence of the two the denials outstanding on the inode have
    changed by the change of the handle's flag, which is 0 or 1: the handle
    holds at most one. *)
Theorem deny_allow_write_idempotent (file : Z) (f : struct_file) (s : kstate) :
  file <> NULL -> files s !! file = Some f ->
  file_deny_write file s =
    (if deny_write f then Ok (tt, s)
     else Ok (tt, {| files := <[file := with_deny_write true f]> (files s);
                     mem := mem s;
                     calls := calls s ++ [call_inode_deny_write (inode f)] |})) /\
  file_allow_write file s =
    (if deny_write f
     then Ok (tt, {| files := <[file := with_deny_write false f]> (files s);
                     mem := mem s;
                     calls := calls s ++ [call_inode_allow_write (inode f)] |})
     else Ok (tt, s)) /\
  (file_deny_write file >> file_deny_write file) s = file_deny_write file s /\
  (file_allow_write file >> file_allow_write file) s = file_allow_write file s /\
  (forall ts, exists s' f',
      toggle_calls file ts s = Ok (tt, s') /\
      files s' !! file = Some f' /\ inode f' = inode f /\ pos f' = pos f /\
      net_denials (inode f) (calls s') - net_denials (inode f) (calls s)
      = Z.b2z (deny_write f') - Z.b2z (deny_write f) /\
      0 <= Z.b2z (deny_write f') <= 1).
Proof.
  intros Hn Hf.
  split; [apply file_deny_write_live; assumption |].
  split; [apply file_allow_write_live; assumption |].
  split; [| split].
  - unfold bind at 1. rewrite (file_deny_write_live file f s Hn Hf).
    destruct (deny_write f) eqn:Hd.
    + rewrite (file_deny_write_live file f s Hn Hf), Hd. reflexivity.
    + erewrite file_deny_write_live;
        [| assumption | simpl; apply lookup_insert_eq]. reflexivity.
  - unfold bind at 1. rewrite (file_allow_write_live file f s Hn Hf).
    destruct (deny_write f) eqn:Hd.
    + erewrite file_allow_write_live;
        [| assumption | simpl; apply lookup_insert_eq]. reflexivity.
    + rewrite (file_allow_write_live file f s Hn Hf), Hd. reflexivity.
  - intros ts.
    destruct (toggle_calls_net file ts f s Hn Hf)
      as (s' & f' & Hrun & Hf' & Hi & Hp & _ & Hnet).
    exists s', f'. repeat split; try assumption; try lia;
      destruct (deny_write f'); simpl; lia.
Qed.

(** C8: [file_close] of the null pointer returns with the state as it
    was.  On a live handle it returns after [inode_allow_write], called
    exactly when the handle had [deny_write] set, followed by
    [inode_close], both on the handle's inode and in that order; the
    handle is freed, and nothing else changes. *)
Theorem file_close_order :
  (forall s, file_close NULL s = Ok (tt, s)) /\
  (forall file f s, file <> NULL -> files s !! file = Some f ->
     exists s', file_close file s = Ok (tt, s') /\
       calls s' = calls s
                  ++ (if deny_write f then [call_inode_allow_write (inode f)] else [])
                  ++ [call_inode_close (inode f)] /\
       files s' = delete file (files s) /\
       mem s' = mem s).
Proof.
  split; [reflexivity |].
  intros file f s Hn Hf. unfold file_close, bind.
  destruct (Z.eqb_spec file NULL); [contradiction |]. simpl.
  rewrite (file_allow_write_live file f s Hn Hf).
  destruct (deny_write f) eqn:Hd.
  - erewrite load_live; [| assumption | simpl; apply lookup_insert_eq].
    unfold do_call, free. simpl.
    destruct (Z.eqb_spec file NULL); [contradiction |].
    eexists. split; [reflexivity |]. simpl.
    rewrite delete_insert_eq, <- app_assoc. auto.
  - rewrite (load_live file f s Hn Hf).
    unfold do_call, free. simpl.
    destruct (Z.eqb_spec file NULL); [contradiction |].
    eexists. split; [reflexivity |]. simpl. auto.
Qed.

End FileProperties.

(** * The properties at concrete inputs *)

Section Examples.

Import File.

(** Every offset of the example file maps to a sector. *)
Lemma demo_mapped (o : Z) :
  0 <= o < 1536 -> to_u32 (@byte_to_sector demo 1 o) <> to_u32 (-1).
Proof.
  intros Ho. simpl.
  destruct (Z.leb_spec 0 o); [| lia]. destruct (Z.ltb_spec o 1536); [| lia]. simpl.
  unfold to_u32, modulus.
  assert (0 <= o / 512 < 3) by (split; [apply Z.div_pos | apply Z.div_lt_upper_bound]; lia).
  rewrite Z.mod_small by lia. change ((-1) mod 2 ^ 32) with 4294967295. lia.
Qed.

(** C1, on the code: two bytes read at offset 511 of the three-sector file.
    The count is 2 and the second byte is byte 512 of the file, but the
    first byte delivered is byte 0 of sector 0 ([x00]) where the file has
    [xff] at offset 511. *)
Theorem file_read_at_boundary_demo :
  exists s',
    @file_read_at demo 7 1000 2 511 demo_state = Ok (2, s') /\
    mem s' 1000 = x00 /\ @file_byte demo 1 511 = xff /\
    mem s' 1000 <> @file_byte demo 1 511 /\
    mem s' 1001 = x10 /\ @file_byte demo 1 512 = x10.
Proof.
  eexists. split; [vm_compute; reflexivity |].
  repeat split; try (vm_compute; reflexivity).
  vm_compute. discriminate.
Qed.

(** C4, on the code: the whole three-sector file read in one call.  The
    sectors fetched are 0, 1, 2 and the hints issued name 0, 1, 2: each
    hint is given the sector just fetched, not the one after it. *)
Theorem file_read_at_hints_demo :
  exists s',
    @file_read_at demo 7 1000 1536 0 demo_state = Ok (1536, s') /\
    fetched_sectors (calls s') = [0; 1; 2] /\
    hinted_sectors (calls s') = [0; 1; 2] /\
    hinted_sectors (calls s') <> [1; 2; 3].
Proof.
  eexists. split; [vm_compute; reflexivity |].
  repeat split; try (vm_compute; reflexivity). discriminate.
Qed.

(** C3 at a concrete input: 5000 bytes asked for at offset 1000 of the
    1536-byte file. *)
Lemma file_read_at_truncates_witness :
  exists n s', @file_read_at demo 7 1000 5000 1000 demo_state = Ok (n, s') /\
    (5000 = 0 -> n = 0) /\
    (1536 <= 1000 -> n = 0) /\
    (1000 < 1536 -> 1536 < 1000 + 5000 -> n = 1536 - 1000) /\
    0 <= n <= 5000 /\
    n <= Z.max 0 (1536 - 1000).
Proof.
  apply (@file_read_at_truncates demo 7 1000 5000 1000 (mk_file 1 5 false) demo_state).
  - unfold NULL; lia.
  - reflexivity.
  - simpl; lia.
  - unfold max_signed; simpl; lia.
  - unfold max_signed; lia.
  - unfold in_s32, min_signed, max_signed; lia.
  - intros o Ho. apply demo_mapped. simpl in Ho. lia.
Defined.

(** C6 at a concrete input: the open handle of the example state, whose
    [deny_write] is false. *)
Lemma deny_allow_write_idempotent_witness :
  file_deny_write 7 demo_state =
    Ok (tt, {| files := <[7 := mk_file 1 5 true]> (files demo_state);
               mem := mem demo_state;
               calls := [call_inode_deny_write 1] |}) /\
  file_allow_write 7 demo_state = Ok (tt, demo_state) /\
  (file_deny_write 7 >> file_deny_write 7) demo_state
  = file_deny_write 7 demo_state /\
  (file_allow_write 7 >> file_allow_write 7) demo_state
  = file_allow_write 7 demo_state /\
  (forall ts, exists s' f',
      toggle_calls 7 ts demo_state = Ok (tt, s') /\
      files s' !! 7 = Some f' /\ inode f' = 1 /\ pos f' = 5 /\
      net_denials 1 (calls s') - net_denials 1 (calls demo_state)
      = Z.b2z (deny_write f') - Z.b2z false /\
      0 <= Z.b2z (deny_write f') <= 1).
Proof.
  apply (deny_allow_write_idempotent 7 (mk_file 1 5 false) demo_state).
  - unfold NULL; lia.
  - reflexivity.
Defined.

(** C8 at concrete inputs: the null pointer, and the open handle of the
    example state. *)
Lemma file_close_order_witness :
  file_close NULL demo_state = Ok (tt, demo_state) /\
  exists s', file_close 7 demo_state = Ok (tt, s') /\
    calls s' = [call_inode_close 1] /\
    files s' = delete 7 (files demo_state) /\
    mem s' = mem demo_state.
Proof.
  split.
  - apply (proj1 file_close_order).
  - apply (proj2 file_close_order 7 (mk_file 1 5 false) demo_state).
    + unfold NULL; lia.
    + reflexivity.
Defined.

(** C10 at a concrete input: 600 bytes at offset 500 of the example file
    into the buffer at address 1000.  Three passes fetch sectors 0, 1 and 2
    to addresses 1000, 1012 and 1524; the count is 600, and the 436 bytes
    at addresses 1600 to 2035, past the 600 bytes reported, hold bytes 76
    to 511 of sector 2, while address 2036 is as it was. *)
Lemma file_read_at_stores_whole_sector_witness :
  (exists s',
     @file_read_at demo 7 1000 600 500 demo_state = Ok (600, s') /\
     calls s' = [call_buffer_cache_read 0 1000; call_cache_read_ahead 0;
                 call_buffer_cache_read 1 1012; call_cache_read_ahead 1;
                 call_buffer_cache_read 2 1524; call_cache_read_ahead 2] /\
     mem s' 1600 = @sector_data demo 2 76 /\
     mem s' 2035 = @sector_data demo 2 511 /\
     mem s' 2036 = xaa) /\
  (exists n s' v' v1 s1 cs,
    @file_read_at demo 7 1000 600 500 demo_state = Ok (n, s') /\
    @iterates demo 1 (mk_locals 1000 500 600 0) demo_state v' s' /\
    @continues demo 1 v' = false /\
    n = bytes_read v' /\
    0 < n <= 600 /\
    calls s' = calls demo_state
               ++ call_buffer_cache_read (to_u32 (@byte_to_sector demo 1 500)) 1000
               :: call_cache_read_ahead (to_u32 (@byte_to_sector demo 1 500))
               :: cs /\
    (forall v2 s2,
       @iterates demo 1 (mk_locals 1000 500 600 0) demo_state v2 s2 ->
       @continues demo 1 v2 = true ->
       exists v3 s3,
         @file_read_at_iteration demo 1 v2 s2 = Ok (Some v3, s3) /\
         @iterates demo 1 (mk_locals 1000 500 600 0) demo_state v3 s3 /\
         bytes_read v3 = bytes_read v2 + @chunk_size_of demo 1 v2 /\
         calls s3 = calls s2
                    ++ [call_buffer_cache_read (@sector_idx_of demo 1 v2)
                          (1000 + bytes_read v2);
                        call_cache_read_ahead (@sector_idx_of demo 1 v2)] /\
         (forall i, 0 <= i < 512 ->
            mem s3 (1000 + bytes_read v2 + i)
            = @sector_data demo (@sector_idx_of demo 1 v2) i) /\
         (forall a, ~ (1000 + bytes_read v2 <= a < 1000 + bytes_read v2 + 512) ->
            mem s3 a = mem s2 a)) /\
    @iterates demo 1 (mk_locals 1000 500 600 0) demo_state v1 s1 /\
    @file_read_at_iteration demo 1 v1 s1 = Ok (Some v', s') /\
    n = bytes_read v1 + @chunk_size_of demo 1 v1 /\
    0 < @chunk_size_of demo 1 v1 /\
    (forall i, 0 <= i < 512 ->
       mem s' (1000 + (n - @chunk_size_of demo 1 v1) + i)
       = @sector_data demo (@sector_idx_of demo 1 v1) i) /\
    (forall j, n <= j < n - @chunk_size_of demo 1 v1 + 512 ->
       mem s' (1000 + j)
       = @sector_data demo (@sector_idx_of demo 1 v1) (j - bytes_read v1))).
Proof.
  split.
  - eexists. split; [vm_compute; reflexivity |].
    repeat split; vm_compute; reflexivity.
  - apply (@file_read_at_stores_whole_sector demo 7 1000 600 500
             (mk_file 1 5 false) demo_state).
    + unfold NULL; lia.
    + reflexivity.
    + unfold max_signed; lia.
    + vm_compute; reflexivity.
Defined.


End Examples.

(** * Further properties of the disk scheduler *)

Section MoreDiskProperties.

Import Disk.

Lemma run_no_process_serviced (evs : list event) : forall st st',
  ~ In Process evs -> run evs st = Ok st' -> worker_log st' = worker_log st.
Proof.
  induction evs as [| e evs IH]; intros st st' Hno Hrun; simpl in *.
  - injection Hrun as <-. reflexivity.
  - destruct e as [req s w dt dl |]; [| tauto]. simpl in Hrun.
    unfold disk_schedule_request in Hrun.
    destruct (req =? NULL); [discriminate |].
    rewrite (IH _ _ (fun H => Hno (or_intror H)) Hrun). reflexivity.
Qed.

Lemma run_idle (m : nat) : forall st,
  disk_queue st = [] ->
  run (repeat Process m) st
  = Ok {| disk_queue := []; worker_log := worker_log st ++ repeat (Sleep 10) m |}.
Proof.
  induction m as [| m IH]; intros [q l] Hq; simpl in *; subst q.
  - rewrite app_nil_r. reflexivity.
  - unfold disk_process_iteration. simpl. rewrite IH by reflexivity. simpl.
    rewrite <- app_assoc. reflexivity.
Qed.

(** X1: once submissions stop, as many passes of the worker as there are
    queued requests empty the queue, servicing exactly the queued requests
    front to back; from then on every pass finds the queue empty, sleeps
    10 ticks and services nothing. *)
Theorem disk_process_drains (st : sched) (n : nat) :
  (length (disk_queue st) <= n)%nat ->
  exists st',
    run (repeat Process n) st = Ok st' /\
    disk_queue st' = [] /\
    serviced st' = serviced st ++ disk_queue st /\
    forall m,
      run (repeat Process m) st'
      = Ok {| disk_queue := []; worker_log := worker_log st' ++ repeat (Sleep 10) m |}.
Proof.
  intros Hn. destruct (run_process_only n st) as (st' & Hrun & Hsv & Hq).
  exists st'. rewrite take_ge in Hsv by exact Hn. rewrite drop_ge in Hq by exact Hn.
  repeat split; try assumption.
  intros m. apply run_idle. exact Hq.
Qed.

(** X2: no request is lost, invented or serviced twice: in every state
    reached from [disk_init] the requests serviced so far together with
    those still queued are, up to order, exactly the requests submitted. *)
Theorem disk_requests_conserved (evs : list event) (st : sched) :
  run evs disk_init = Ok st ->
  Permutation (serviced st ++ disk_queue st) (submitted evs) /\
  (length (serviced st) + length (disk_queue st) = length (submitted evs))%nat.
Proof.
  intros Hrun.
  destruct (queue_inv_run evs [] disk_init st queue_inv_init Hrun) as (_ & Hp & _).
  simpl in Hp. split; [exact Hp |].
  rewrite <- length_app. apply Permutation_length. exact Hp.
Qed.

(** X3: submissions first, service afterwards: when all requests are
    submitted before the worker runs, the order in which it then services
    them is the stable sort of the submission order by deadline. *)
Theorem disk_service_order_is_stable_sort (evs : list event) (st : sched) (n : nat) :
  ~ In Process evs ->
  run evs disk_init = Ok st ->
  (length (submitted evs) <= n)%nat ->
  exists st',
    run (repeat Process n) st = Ok st' /\
    disk_queue st' = [] /\
    Permutation (serviced st') (submitted evs) /\
    StronglySorted deadline_le (serviced st') /\
    forall d, with_deadline d (serviced st') = with_deadline d (submitted evs).
Proof.
  intros Hno Hrun Hn.
  destruct (queue_inv_run evs [] disk_init st queue_inv_init Hrun) as (Hs & Hp & Hf).
  simpl in Hp, Hf.
  assert (Hnil : serviced st = []).
  { unfold serviced. rewrite (run_no_process_serviced evs _ _ Hno Hrun). reflexivity. }
  rewrite Hnil in Hp, Hf. simpl in Hp, Hf.
  assert (Hlen : (length (disk_queue st) <= n)%nat).
  { rewrite (Permutation_length Hp). exact Hn. }
  destruct (run_process_only n st) as (st' & Hrun' & Hsv & Hq).
  rewrite take_ge in Hsv by exact Hlen. rewrite drop_ge in Hq by exact Hlen.
  rewrite Hnil in Hsv. simpl in Hsv.
  exists st'. rewrite Hsv. repeat split; assumption.
Qed.

(** Where an insertion lands in an ascending queue. *)
Lemma list_insert_ordered_split (q : list disk_request) (r : disk_request) :
  StronglySorted deadline_le q ->
  exists q1 q2,
    q = q1 ++ q2 /\
    list_insert_ordered q r disk_request_compare = q1 ++ r :: q2 /\
    Forall (fun x => deadline x <= deadline r) q1 /\
    Forall (fun x => deadline r < deadline x) q2.
Proof.
  induction 1 as [| e q Hq IH Hall]; simpl.
  - exists [], []. repeat split; constructor.
  - unfold disk_request_compare at 1.
    destruct (Z.ltb_spec (deadline r) (deadline e)) as [Hlt | Hge].
    + exists [], (e :: q). repeat split; try constructor; try assumption.
      eapply Forall_impl; [| exact Hall].
      intros x Hx. unfold deadline_le in Hx. lia.
    + destruct IH as (q1 & q2 & Heq & Hins & H1 & H2).
      exists (e :: q1), q2. rewrite Hins, Heq. repeat split; try assumption.
      constructor; assumption.
Qed.

(** X4: a successful [disk_schedule_request] on an ascending queue puts
    the new request behind every queued request whose deadline is no later
    than its own and ahead of every request with a later deadline, moves
    no other request and leaves the worker's log alone; so a request more
    urgent than all queued ones goes to the front, where the next pass of
    the worker takes it. *)
Theorem disk_schedule_request_position
    (req sector : Z) (is_write : bool) (data deadline : Z) (st : sched) :
  req <> NULL ->
  StronglySorted deadline_le (disk_queue st) ->
  exists st' q1 q2,
    disk_schedule_request req sector is_write data deadline st = Ok st' /\
    disk_queue st = q1 ++ q2 /\
    disk_queue st' = q1 ++ mk_request sector is_write data deadline :: q2 /\
    Forall (fun x => Disk.deadline x <= deadline) q1 /\
    Forall (fun x => deadline < Disk.deadline x) q2 /\
    worker_log st' = worker_log st /\
    (Forall (fun x => deadline < Disk.deadline x) (disk_queue st) ->
     serviced (disk_process_iteration st')
     = serviced st ++ [mk_request sector is_write data deadline] /\
     disk_queue (disk_process_iteration st') = disk_queue st).
Proof.
  intros Hreq Hs. unfold disk_schedule_request.
  destruct (Z.eqb_spec req NULL); [contradiction |].
  destruct (list_insert_ordered_split (disk_queue st)
              (mk_request sector is_write data deadline) Hs)
    as (q1 & q2 & Heq & Hins & H1 & H2).
  eexists _, q1, q2. split; [reflexivity |]. simpl.
  repeat split; try assumption.
  - rewrite Heq in H. destruct q1 as [| x q1].
    + simpl in Hins. unfold disk_process_iteration, serviced. simpl.
      rewrite Hins. simpl. rewrite serviced_of_app. simpl. reflexivity.
    + inversion H; subst. inversion H1; subst. simpl in *. lia.
  - rewrite Heq in H. destruct q1 as [| x q1].
    + simpl in Hins. unfold disk_process_iteration. simpl.
      rewrite Hins. simpl. rewrite Heq. reflexivity.
    + inversion H; subst. inversion H1; subst. simpl in *. lia.
Qed.

End MoreDiskProperties.

(** * Further properties of the file layer *)

Section MoreFileProperties.

Import File.

Context {C : Collaborators}.

(** [file_open] in closed form. *)
Lemma file_open_eq (inode c : Z) (s : kstate) :
  file_open inode c s =
    if negb (inode =? NULL) && negb (c =? NULL)
    then Ok (c, set_files (<[c := mk_file inode 0 false]> (files s)) s)
    else Ok (NULL, {| files := if c =? NULL then files s else delete c (files s);
                      mem := mem s;
                      calls := calls s ++ [call_inode_close inode] |}).
Proof.
  unfold file_open, bind, calloc, free, do_call, ret.
  destruct (c =? NULL) eqn:Hc.
  - simpl. rewrite andb_false_r. reflexivity.
  - destruct (inode =? NULL) eqn:Hi; simpl.
    + rewrite ?Hc. simpl. unfold set_files, log_call. simpl.
      rewrite delete_insert_eq. reflexivity.
    + rewrite ?Hc. simpl. apply Z.eqb_neq in Hc, Hi.
      erewrite store_live; [| assumption | simpl; apply lookup_insert_eq].
      erewrite store_live; [| assumption | simpl; apply lookup_insert_eq].
      erewrite store_live; [| assumption | simpl; apply lookup_insert_eq].
      unfold set_files. simpl. rewrite !insert_insert_eq. reflexivity.
Qed.

(** [file_close] of a live handle in closed form. *)
Lemma file_close_live (file : Z) (f : struct_file) (s : kstate) :
  file <> NULL -> files s !! file = Some f ->
  file_close file s =
    Ok (tt, {| files := delete file (files s);
               mem := mem s;
               calls := calls s
                        ++ (if deny_write f then [call_inode_allow_write (inode f)] else [])
                        ++ [call_inode_close (inode f)] |}).
Proof.
  intros Hn Hf. unfold file_close, bind.
  destruct (Z.eqb_spec file NULL); [contradiction |]. simpl.
  rewrite (file_allow_write_live file f s Hn Hf).
  destruct (deny_write f) eqn:Hd.
  - erewrite load_live; [| assumption | simpl; apply lookup_insert_eq].
    unfold do_call, free. simpl.
    destruct (Z.eqb_spec file NULL); [contradiction |].
    unfold set_files, log_call. simpl.
    rewrite delete_insert_eq, <- app_assoc. reflexivity.
  - rewrite (load_live file f s Hn Hf).
    unfold do_call, free. simpl.
    destruct (Z.eqb_spec file NULL); [contradiction |]. reflexivity.
Qed.

(** X5: [file_seek] followed by [file_tell] returns the position set, for
    every position [>= 0]; the seek changes nothing but [pos] of this
    handle and calls no collaborator; a negative position fails the
    assertion of [file_seek], also on a live handle. *)
Theorem file_seek_tell (file new_pos : Z) (f : struct_file) (s : kstate) :
  file <> NULL -> files s !! file = Some f ->
  (0 <= new_pos ->
   (file_seek file new_pos >> file_tell file) s
   = Ok (new_pos, {| files := <[file := with_pos new_pos f]> (files s);
                     mem := mem s; calls := calls s |})) /\
  (new_pos < 0 -> file_seek file new_pos s = Panic).
Proof.
  intros Hn Hf. split; intros Hp; unfold file_seek, file_tell, bind, ASSERT, ret.
  - destruct (Z.eqb_spec file NULL); [contradiction |]. simpl.
    destruct (Z.geb_spec new_pos 0); [| lia].
    rewrite (store_live file f _ s Hn Hf).
    erewrite load_live; [| assumption | simpl; apply lookup_insert_eq]. reflexivity.
  - destruct (Z.eqb_spec file NULL); [contradiction |]. simpl.
    destruct (Z.geb_spec new_pos 0); [lia | reflexivity].
Qed.

(** X6: the null handle.  [file_deny_write], [file_allow_write],
    [file_length], [file_seek] and [file_tell] assert that the handle is
    not null and stop there; [file_get_inode], [file_reopen], [file_read],
    [file_write], [file_read_at] and [file_write_at] carry no assertion and
    load through the null pointer. *)
Theorem null_handle_outcomes (s : kstate) (buffer size ofs new_pos c : Z) :
  file_deny_write NULL s = Panic /\
  file_allow_write NULL s = Panic /\
  file_length NULL s = Panic /\
  file_seek NULL new_pos s = Panic /\
  file_tell NULL s = Panic /\
  file_get_inode NULL s = NullDeref /\
  file_reopen NULL c s = NullDeref /\
  file_read NULL buffer size s = NullDeref /\
  file_write NULL buffer size s = NullDeref /\
  file_read_at NULL buffer size ofs s = NullDeref /\
  file_write_at NULL buffer size ofs s = NullDeref.
Proof. repeat split; reflexivity. Qed.

(** X7: [file_read] and [file_write] on a live handle pass the handle's
    inode and current position to the inode layer, return the count it
    returns, and move [pos] forward by exactly that count (as an [off_t]);
    nothing else of the handle changes, and neither consults the handle's
    [deny_write]; a [file_tell] right after a [file_read] gives the
    advanced position. *)
Theorem file_read_write_advance_pos
    (file buffer size : Z) (f : struct_file) (s : kstate) :
  file <> NULL -> files s !! file = Some f ->
  file_read file buffer size s
  = Ok (fst (inode_read_at (inode f) buffer size (pos f) (mem s)),
        {| files := <[file := with_pos
                        (to_s32 (pos f + fst (inode_read_at (inode f) buffer size
                                                (pos f) (mem s)))) f]> (files s);
           mem := snd (inode_read_at (inode f) buffer size (pos f) (mem s));
           calls := calls s ++ [call_inode_read_at (inode f) buffer size (pos f)] |}) /\
  file_write file buffer size s
  = Ok (inode_write_at (inode f) buffer size (pos f) (mem s),
        {| files := <[file := with_pos
                        (to_s32 (pos f + inode_write_at (inode f) buffer size
                                           (pos f) (mem s))) f]> (files s);
           mem := mem s;
           calls := calls s ++ [call_inode_write_at (inode f) buffer size (pos f)] |}) /\
  exists s',
    (file_read file buffer size >> file_tell file) s
    = Ok (to_s32 (pos f + fst (inode_read_at (inode f) buffer size (pos f) (mem s))), s').
Proof.
  intros Hn Hf.
  assert (Hread : file_read file buffer size s
    = Ok (fst (inode_read_at (inode f) buffer size (pos f) (mem s)),
        {| files := <[file := with_pos
                        (to_s32 (pos f + fst (inode_read_at (inode f) buffer size
                                                (pos f) (mem s)))) f]> (files s);
           mem := snd (inode_read_at (inode f) buffer size (pos f) (mem s));
           calls := calls s ++ [call_inode_read_at (inode f) buffer size (pos f)] |})).
  { unfold file_read, bind, do_call. rewrite (load_live file f s Hn Hf). simpl.
    destruct (inode_read_at (inode f) buffer size (pos f) (mem s)) as [n m].
    erewrite store_live; [| assumption | simpl; exact Hf]. reflexivity. }
  split; [exact Hread |]. split.
  - unfold file_write, bind, do_call. rewrite (load_live file f s Hn Hf). simpl.
    erewrite store_live; [| assumption | simpl; exact Hf]. reflexivity.
  - unfold bind at 1. rewrite Hread. unfold file_tell, bind, ASSERT, ret.
    destruct (Z.eqb_spec file NULL); [contradiction |]. simpl.
    erewrite load_live; [| assumption | simpl; apply lookup_insert_eq].
    eexists. reflexivity.
Qed.

(** X8: [file_reopen] on a live handle asks the inode layer to reopen the
    handle's inode and opens a new handle on the result: the result is
    null exactly when [inode_reopen] returned null or the allocation
    failed, and then the reopened inode is closed again; otherwise the new
    handle starts at position 0 with [deny_write] false, whatever the
    position and write denial of the original; the original handle is
    unchanged either way. *)
Theorem file_reopen_independent (file c : Z) (f : struct_file) (s : kstate) :
  file <> NULL -> files s !! file = Some f -> c <> file ->
  exists r s',
    file_reopen file c s = Ok (r, s') /\
    files s' !! file = Some f /\
    (r = NULL <-> inode_reopen (inode f) = NULL \/ c = NULL) /\
    (r <> NULL ->
       r = c /\
       files s' !! c = Some (mk_file (inode_reopen (inode f)) 0 false) /\
       calls s' = calls s ++ [call_inode_reopen (inode f)]) /\
    (r = NULL ->
       calls s' = calls s ++ [call_inode_reopen (inode f);
                              call_inode_close (inode_reopen (inode f))]).
Proof.
  intros Hn Hf Hc. unfold file_reopen, bind, do_call.
  rewrite (load_live file f s Hn Hf), file_open_eq.
  destruct (Z.eqb_spec (inode_reopen (inode f)) NULL) as [Hi | Hi];
    destruct (Z.eqb_spec c NULL) as [Hcn | Hcn]; simpl;
    eexists _, _; (split; [reflexivity |]); simpl;
    rewrite ?lookup_insert_eq, ?lookup_insert_ne, ?lookup_delete_ne by congruence;
    rewrite <- ?app_assoc; simpl;
    repeat split; auto; try tauto; try congruence.
Qed.

(** X9: the inode given to [file_open] is released exactly once.  Opening
    with a fresh allocation and closing what [file_open] returned makes
    exactly one [inode_close] call, on that inode, whether the open
    succeeded (the close releases it) or failed (the open released it and
    [file_close] of the null result does nothing), and leaves no handle
    behind. *)
Theorem file_open_close_releases_once (inode c : Z) (s : kstate) :
  files s !! c = None ->
  exists s',
    (let* file := file_open inode c in file_close file) s = Ok (tt, s') /\
    files s' = files s /\ mem s' = mem s /\
    calls s' = calls s ++ [call_inode_close inode].
Proof.
  intros Hfresh. unfold bind at 1. rewrite file_open_eq.
  destruct (Z.eqb_spec inode NULL) as [Hi | Hi];
    destruct (Z.eqb_spec c NULL) as [Hc | Hc]; simpl.
  - eexists. split; [reflexivity |]. simpl. auto.
  - eexists. split; [reflexivity |]. simpl.
    rewrite delete_id by exact Hfresh. auto.
  - eexists. split; [reflexivity |]. simpl. auto.
  - erewrite file_close_live; [| exact Hc | simpl; apply lookup_insert_eq].
    eexists. split; [reflexivity |]. simpl.
    rewrite delete_insert_eq, delete_id by exact Hfresh. auto.
Qed.

(** The handles after a sequence of deny/allow calls. *)
Lemma toggle_calls_files (file : Z) (ts : list toggle) : forall (f : struct_file) (s : kstate),
  file <> NULL -> files s !! file = Some f ->
  exists s' b, toggle_calls file ts s = Ok (tt, s') /\
    files s' = <[file := with_deny_write b f]> (files s) /\
    mem s' = mem s /\
    net_denials (inode f) (calls s')
    = net_denials (inode f) (calls s) + Z.b2z b - Z.b2z (deny_write f).
Proof.
  induction ts as [| t ts IH]; intros f s Hn Hf; simpl.
  - exists s, (deny_write f). split; [reflexivity |].
    split; [| split; [reflexivity | lia]].
    destruct f; simpl. rewrite insert_id by exact Hf. reflexivity.
  - unfold bind.
    assert (Hstep : exists s1 b1, toggle_call file t s = Ok (tt, s1) /\
              files s1 = <[file := with_deny_write b1 f]> (files s) /\
              mem s1 = mem s /\
              net_denials (inode f) (calls s1)
              = net_denials (inode f) (calls s) + Z.b2z b1 - Z.b2z (deny_write f)).
    { destruct t; simpl;
        [rewrite (file_deny_write_live file f s Hn Hf)
        | rewrite (file_allow_write_live file f s Hn Hf)];
        destruct (deny_write f) eqn:Hd.
      - exists s, true. split; [reflexivity |].
        split; [| split; [reflexivity | simpl; lia]].
        destruct f; simpl in *; subst. rewrite insert_id by exact Hf. reflexivity.
      - eexists _, true. split; [reflexivity |]. simpl.
        rewrite net_denials_app. simpl. rewrite Z.eqb_refl. repeat split; lia.
      - eexists _, false. split; [reflexivity |]. simpl.
        rewrite net_denials_app. simpl. rewrite Z.eqb_refl. repeat split; lia.
      - exists s, false. split; [reflexivity |].
        split; [| split; [reflexivity | simpl; lia]].
        destruct f; simpl in *; subst. rewrite insert_id by exact Hf. reflexivity. }
    destruct Hstep as (s1 & b1 & -> & Hf1 & Hm1 & Hnet1).
    destruct (IH (with_deny_write b1 f) s1 Hn) as (s' & b & Hrun & Hf' & Hm' & Hnet').
    { rewrite Hf1. apply lookup_insert_eq. }
    exists s', b. split; [exact Hrun |]. simpl in *.
    rewrite Hf', Hf1, insert_insert_eq.
    repeat split; try congruence. lia.
Qed.

(** X10: closing a handle gives back its write denial.  After any sequence
    of [file_deny_write] and [file_allow_write] calls on a live handle,
    [file_close] returns with the handle gone, the other handles as they
    were, and the denials outstanding on the inode lowered by one if the
    handle held a denial at the start and unchanged otherwise: none of the
    denials made through the handle outlives it. *)
Theorem file_close_releases_denial
    (file : Z) (ts : list toggle) (f : struct_file) (s : kstate) :
  file <> NULL -> files s !! file = Some f ->
  exists s',
    (toggle_calls file ts >> file_close file) s = Ok (tt, s') /\
    files s' = delete file (files s) /\
    mem s' = mem s /\
    net_denials (inode f) (calls s')
    = net_denials (inode f) (calls s) - Z.b2z (deny_write f).
Proof.
  intros Hn Hf. unfold bind.
  destruct (toggle_calls_files file ts f s Hn Hf) as (s1 & b & -> & Hf1 & Hm1 & Hnet1).
  erewrite file_close_live; [| exact Hn | rewrite Hf1; apply lookup_insert_eq].
  eexists. split; [reflexivity |]. simpl.
  rewrite Hf1, delete_insert_eq, !net_denials_app, Hnet1.
  split; [reflexivity |]. split; [exact Hm1 |].
  destruct b; simpl; rewrite ?Z.eqb_refl; lia.
Qed.

End MoreFileProperties.

(** * Further properties of [file_read_at] *)

Section MoreReadProperties.

Import File.

Context {C : Collaborators}.

(** X11: [file_read_at] has nothing to do, returns 0 and leaves the state
    as it was (no cache call, no byte stored) when no byte is asked for
    ([size <= 0]), when the offset maps to no sector, or when the offset is
    at or past the end of the inode. *)
Theorem file_read_at_nothing_to_read
    (file buffer size file_ofs : Z) (f : struct_file) (s : kstate) :
  file <> NULL -> files s !! file = Some f ->
  size <= 0 \/
  to_u32 (byte_to_sector (inode f) file_ofs) = to_u32 (-1) \/
  min_signed <= inode_length (inode f) - file_ofs <= 0 ->
  file_read_at file buffer size file_ofs s = Ok (0, s).
Proof.
  intros Hn Hf Hcase. unfold file_read_at, bind.
  rewrite (load_live file f s Hn Hf), file_read_at_loop_eq.
  assert (Hstop : continues (inode f) (mk_locals buffer file_ofs size 0) = false).
  { unfold continues, sector_idx_of. simpl.
    destruct Hcase as [Hs | [Hx | Hl]].
    - destruct (Z.gtb_spec size 0); [lia | reflexivity].
    - rewrite Hx, Z.eqb_refl. simpl. rewrite andb_false_r. reflexivity.
    - assert (chunk_size_of (inode f) (mk_locals buffer file_ofs size 0) <= 0) as Hk.
      { rewrite chunk_size_of_min. simpl.
        rewrite (to_s32_id (inode_length (inode f) - file_ofs))
          by (unfold in_s32, min_signed, max_signed in *; lia).
        lia. }
      apply Z.leb_le in Hk. rewrite Hk. simpl. apply andb_false_r. }
  rewrite Hstop. reflexivity.
Qed.

(** Where the passes store: nothing below the caller's buffer, and
    nothing from [BLOCK_SECTOR_SIZE - 1] bytes past the bytes read on. *)
Lemma iterates_mem_confined (inode buffer ofs size0 : Z) (s0 : kstate)
    (v : locals) (s : kstate) :
  0 <= size0 <= max_signed ->
  iterates inode (mk_locals buffer ofs size0 0) s0 v s ->
  forall a, a < buffer \/ buffer + bytes_read v + BLOCK_SECTOR_SIZE - 1 <= a ->
            mem s a = mem s0 a.
Proof.
  intros Hsz Hit. induction Hit as [| v1 s1 v' s' Hit IH Hstep]; [reflexivity |].
  pose proof (iterates_counts _ _ _ _ _ _ _ Hsz Hit) as (Hb & Hs & Hsum & Hbuf).
  rewrite file_read_at_iteration_eq in Hstep.
  destruct (continues inode v1) eqn:Hc; [| discriminate].
  injection Hstep as <- <-.
  destruct (continues_chunk _ _ Hc) as (_ & Hk & _).
  intros a Ha. simpl in Ha.
  rewrite to_s32_id in Ha by (unfold in_s32, min_signed, max_signed in *; lia).
  destruct (next_state_mem inode v1 s1) as [_ Hout].
  rewrite Hout by lia. apply IH. lia.
Qed.

(** X12: the stores of [file_read_at] are confined.  For a request of
    [size >= 0] bytes that returns [n]: [0 <= n <= size]; with [n = 0] the
    state is as it was; and no byte of memory below the buffer, or at
    [buffer + n + BLOCK_SECTOR_SIZE - 1] and above, is changed: the call
    never stores before the buffer and overruns the bytes it reports by
    less than one sector. *)
Theorem file_read_at_stores_confined
    (file buffer size file_ofs : Z) (f : struct_file) (s : kstate) :
  file <> NULL -> files s !! file = Some f ->
  0 <= size <= max_signed ->
  exists n s',
    file_read_at file buffer size file_ofs s = Ok (n, s') /\
    0 <= n <= size /\
    (n = 0 -> s' = s) /\
    (forall a, a < buffer \/ buffer + n + BLOCK_SECTOR_SIZE - 1 <= a ->
               mem s' a = mem s a).
Proof.
  intros Hn Hf Hsz. unfold file_read_at, bind. rewrite (load_live file f s Hn Hf).
  destruct (file_read_at_loop_total (Z.to_nat size) (inode f)
              (mk_locals buffer file_ofs size 0) s (le_n _))
    as (n & s' & Hrun & _).
  exists n, s'. split; [exact Hrun |].
  destruct (file_read_at_loop_iterates _ _ s _ _ _ _ _
              (iterates_start _ _ _) Hrun) as (v' & Hit & _ & ->).
  pose proof (iterates_counts _ _ _ _ _ _ _ Hsz Hit) as (Hb & Hs & Hsum & _).
  split; [lia |]. split.
  - intros Hzero.
    destruct (iterates_inv _ _ _ _ _ Hit)
      as [[_ ->] | (v1 & s1 & Hit1 & Hc & -> & ->)]; [reflexivity |].
    pose proof (iterates_counts _ _ _ _ _ _ _ Hsz Hit1) as (Hb1 & Hs1 & Hsum1 & _).
    destruct (continues_chunk _ _ Hc) as (_ & Hk & _).
    simpl in Hzero.
    rewrite to_s32_id in Hzero by (unfold in_s32, min_signed, max_signed in *; lia).
    lia.
  - apply (iterates_mem_confined _ _ _ _ _ _ _ Hsz Hit).
Qed.


Lemma aligned_add_mod (a i b : Z) :
  0 < b -> a mod b = 0 -> 0 <= i < b -> (a + i) mod b = i.
Proof.
  intros Hb Ha Hi.
  rewrite Z.add_mod by lia. rewrite Ha, Z.add_0_l.
  rewrite Z.mod_mod by lia. apply Z.mod_small. exact Hi.
Qed.

(** Sector-aligned requests: the loop stands at a sector boundary at
    every pass that runs, and the bytes read so far are the file's. *)
Lemma iterates_aligned (inode buffer ofs size0 : Z) (s0 : kstate)
    (v : locals) (s : kstate) :
  0 < BLOCK_SECTOR_SIZE <= 2 ^ 30 ->
  0 <= inode_length inode <= max_signed ->
  0 <= size0 <= max_signed ->
  0 <= ofs <= max_signed ->
  ofs mod BLOCK_SECTOR_SIZE = 0 ->
  (forall o i, 0 <= o -> o mod BLOCK_SECTOR_SIZE = 0 -> 0 <= i < BLOCK_SECTOR_SIZE ->
     o + i < inode_length inode ->
     byte_to_sector inode (o + i) = byte_to_sector inode o) ->
  iterates inode (mk_locals buffer ofs size0 0) s0 v s ->
  (file_ofs v mod BLOCK_SECTOR_SIZE = 0 \/ size v = 0 \/
   inode_length inode <= file_ofs v) /\
  (forall j, 0 <= j < bytes_read v ->
     mem s (buffer + j) = file_byte inode (ofs + j)).
Proof.
  intros Hbss Hlen Hsz Hofs Hal Hblock Hit.
  assert (Hin : in_s32 ofs) by (unfold in_s32, min_signed, max_signed in *; lia).
  assert (Hno : inode_length inode - ofs <= max_signed) by lia.
  induction Hit as [| v1 s1 v' s' Hit IH Hstep].
  - simpl. split; [left; exact Hal | intros j Hj; lia].
  - pose proof (iterates_counts _ _ _ _ _ _ _ Hsz Hit) as (Hb & Hs & Hsum & Hbuf).
    pose proof (iterates_offsets _ _ _ _ _ _ _ Hlen Hsz Hin Hno Hit) as (Ho & Hmax).
    rewrite file_read_at_iteration_eq in Hstep.
    destruct (continues inode v1) eqn:Hc; [| discriminate].
    injection Hstep as <- <-.
    destruct (continues_chunk _ _ Hc) as (Hs1 & Hk & _).
    destruct IH as [IHa IHm].
    pose proof (chunk_size_of_min inode v1) as Hmin.
    destruct (sector_left_pos v1 Hbss) as [Hsl1 Hsl].
    rewrite Hsl1 in Hmin.
    rewrite (to_s32_id (inode_length inode - file_ofs v1)) in Hmin
      by (unfold in_s32, min_signed, max_signed in *; lia).
    assert (Hal1 : file_ofs v1 mod BLOCK_SECTOR_SIZE = 0).
    { destruct IHa as [H | [H | H]]; [exact H | lia | lia]. }
    assert (Hrem : sector_ofs_of v1 = 0).
    { unfold sector_ofs_of. rewrite Z.rem_mod_nonneg by lia. exact Hal1. }
    rewrite Hrem in Hmin.
    unfold max_signed in *.
    assert (Hbr : bytes_read (next_locals inode v1)
                  = bytes_read v1 + chunk_size_of inode v1).
    { simpl. apply to_s32_id. unfold in_s32, min_signed, max_signed. lia. }
    assert (Hfo : file_ofs (next_locals inode v1)
                  = file_ofs v1 + chunk_size_of inode v1).
    { simpl. apply to_s32_id. unfold in_s32, min_signed, max_signed. lia. }
    assert (Hsz' : size (next_locals inode v1) = size v1 - chunk_size_of inode v1).
    { simpl. apply to_s32_id. unfold in_s32, min_signed, max_signed. lia. }
    split.
    + rewrite Hfo, Hsz'.
      destruct (Z.eq_dec (chunk_size_of inode v1) BLOCK_SECTOR_SIZE) as [He | Hne].
      * left. rewrite He.
        rewrite <- (Z.mul_1_l BLOCK_SECTOR_SIZE) at 1.
        rewrite Z.mod_add by lia. exact Hal1.
      * right. lia.
    + intros j Hj. rewrite Hbr in Hj.
      destruct (next_state_mem inode v1 s1) as [Hin1 Hout1].
      destruct (Z.lt_ge_cases j (bytes_read v1)) as [Hlt | Hge].
      * rewrite Hout1 by lia. apply IHm. lia.
      * specialize (Hin1 (j - bytes_read v1) ltac:(lia)).
        replace (buffer_ v1 + (j - bytes_read v1)) with (buffer + j) in Hin1 by lia.
        rewrite Hin1. unfold file_byte, sector_idx_of.
        replace (ofs + j) with (file_ofs v1 + (j - bytes_read v1)) by lia.
        rewrite Hblock by lia.
        rewrite aligned_add_mod by lia. reflexivity.
Qed.

(** X14: a request that starts at a sector boundary is served correctly.
    On an inode that keeps the bytes of one sector-sized block, as far as
    they lie below its length, in one sector (offsets from the length on
    may map anywhere or nowhere), with [file_ofs] a multiple of
    [BLOCK_SECTOR_SIZE], every byte
    [file_read_at] reports is the byte of the file at that offset: byte
    [j] of the buffer holds byte [file_ofs + j] of the file for all [j]
    below the count returned. *)
Theorem file_read_at_aligned_correct
    (file buffer size file_ofs : Z) (f : struct_file) (s : kstate) :
  file <> NULL -> files s !! file = Some f ->
  0 < BLOCK_SECTOR_SIZE <= 2 ^ 30 ->
  0 <= inode_length (inode f) <= max_signed ->
  0 <= size <= max_signed ->
  0 <= file_ofs <= max_signed ->
  file_ofs mod BLOCK_SECTOR_SIZE = 0 ->
  (forall o i, 0 <= o -> o mod BLOCK_SECTOR_SIZE = 0 -> 0 <= i < BLOCK_SECTOR_SIZE ->
     o + i < inode_length (inode f) ->
     byte_to_sector (inode f) (o + i) = byte_to_sector (inode f) o) ->
  exists n s',
    file_read_at file buffer size file_ofs s = Ok (n, s') /\
    forall j, 0 <= j < n -> mem s' (buffer + j) = file_byte (inode f) (file_ofs + j).
Proof.
  intros Hn Hf Hbss Hlen Hsz Hofs Hal Hblock.
  unfold file_read_at, bind. rewrite (load_live file f s Hn Hf).
  destruct (file_read_at_loop_total (Z.to_nat size) (inode f)
              (mk_locals buffer file_ofs size 0) s (le_n _))
    as (n & s' & Hrun & _).
  exists n, s'. split; [exact Hrun |].
  destruct (file_read_at_loop_iterates _ _ s _ _ _ _ _
              (iterates_start _ _ _) Hrun) as (v' & Hit & _ & ->).
  exact (proj2 (iterates_aligned _ _ _ _ _ _ _ Hbss Hlen Hsz Hofs Hal Hblock Hit)).
Qed.

End MoreReadProperties.

(** * What [file_read_at] delivers *)

Section ReadContents.

Import File.

Context {C : Collaborators}.

(** Requests from any offset [>= 0]: with [c0] the bytes from the offset
    to the end of its sector, the bytes before [c0] are the leading bytes
    of the first sector fetched, and the bytes from [c0] on are the
    file's. *)
Lemma iterates_contents (inode buffer ofs size0 : Z) (s0 : kstate)
    (v : locals) (s : kstate) :
  0 < BLOCK_SECTOR_SIZE <= 2 ^ 30 ->
  0 <= inode_length inode <= max_signed ->
  0 <= size0 <= max_signed ->
  0 <= ofs <= max_signed ->
  (forall o i, 0 <= o -> o mod BLOCK_SECTOR_SIZE = 0 -> 0 <= i < BLOCK_SECTOR_SIZE ->
     o + i < inode_length inode ->
     byte_to_sector inode (o + i) = byte_to_sector inode o) ->
  iterates inode (mk_locals buffer ofs size0 0) s0 v s ->
  (bytes_read v = 0 \/ size v = 0 \/ inode_length inode <= file_ofs v \/
   (file_ofs v mod BLOCK_SECTOR_SIZE = 0 /\
    BLOCK_SECTOR_SIZE - ofs mod BLOCK_SECTOR_SIZE <= bytes_read v)) /\
  (forall j, 0 <= j < bytes_read v ->
     j < BLOCK_SECTOR_SIZE - ofs mod BLOCK_SECTOR_SIZE ->
     mem s (buffer + j) = sector_data (to_u32 (byte_to_sector inode ofs)) j) /\
  (forall j, BLOCK_SECTOR_SIZE - ofs mod BLOCK_SECTOR_SIZE <= j < bytes_read v ->
     mem s (buffer + j) = file_byte inode (ofs + j)).
Proof.
  intros Hbss Hlen Hsz Hofs Hblock Hit.
  assert (Hin : in_s32 ofs) by (unfold in_s32, min_signed, max_signed in *; lia).
  assert (Hno : inode_length inode - ofs <= max_signed) by lia.
  assert (Hpos : 0 < BLOCK_SECTOR_SIZE) by lia.
  pose proof (Z.mod_pos_bound ofs BLOCK_SECTOR_SIZE Hpos) as Hc0.
  set (c0 := BLOCK_SECTOR_SIZE - ofs mod BLOCK_SECTOR_SIZE) in *.
  induction Hit as [| v1 s1 v' s' Hit IH Hstep].
  - simpl. split; [left; reflexivity |]. split; intros j Hj; lia.
  - pose proof (iterates_counts _ _ _ _ _ _ _ Hsz Hit) as (Hb & Hs & Hsum & Hbuf).
    pose proof (iterates_offsets _ _ _ _ _ _ _ Hlen Hsz Hin Hno Hit) as (Ho & Hmax).
    rewrite file_read_at_iteration_eq in Hstep.
    destruct (continues inode v1) eqn:Hc; [| discriminate].
    injection Hstep as <- <-.
    destruct (continues_chunk _ _ Hc) as (Hs1 & Hk & _).
    destruct IH as (IHa & IHh & IHm).
    pose proof (chunk_size_of_min inode v1) as Hmin.
    destruct (sector_left_pos v1 Hbss) as [Hsl1 Hsl].
    rewrite Hsl1 in Hmin.
    rewrite (to_s32_id (inode_length inode - file_ofs v1)) in Hmin
      by (unfold in_s32, min_signed, max_signed in *; lia).
    unfold max_signed in *.
    assert (Hbr : bytes_read (next_locals inode v1)
                  = bytes_read v1 + chunk_size_of inode v1).
    { simpl. apply to_s32_id. unfold in_s32, min_signed, max_signed. lia. }
    assert (Hfo : file_ofs (next_locals inode v1)
                  = file_ofs v1 + chunk_size_of inode v1).
    { simpl. apply to_s32_id. unfold in_s32, min_signed, max_signed. lia. }
    assert (Hsz' : size (next_locals inode v1) = size v1 - chunk_size_of inode v1).
    { simpl. apply to_s32_id. unfold in_s32, min_signed, max_signed. lia. }
    destruct (next_state_mem inode v1 s1) as [Hin1 Hout1].
    rewrite Hbr, Hfo, Hsz'.
    destruct (Z.eq_dec (bytes_read v1) 0) as [Hfirst | Hlater].
    + (* the first pass *)
      assert (Hfo1 : file_ofs v1 = ofs) by lia.
      assert (Hrem : sector_ofs_of v1 = ofs mod BLOCK_SECTOR_SIZE).
      { unfold sector_ofs_of. rewrite Hfo1. apply Z.rem_mod_nonneg; lia. }
      rewrite Hrem in Hmin. fold c0 in Hmin.
      split; [| split].
      * destruct (Z.eq_dec (chunk_size_of inode v1) c0) as [He | Hne].
        -- right. right. right. split; [| lia].
           rewrite He, Hfo1. unfold c0.
           replace (ofs + (BLOCK_SECTOR_SIZE - ofs mod BLOCK_SECTOR_SIZE))
             with (ofs - ofs mod BLOCK_SECTOR_SIZE + 1 * BLOCK_SECTOR_SIZE) by lia.
           rewrite Z.mod_add by lia.
           rewrite Zminus_mod_idemp_r, Z.sub_diag. apply Z.mod_0_l. lia.
        -- right. lia.
      * intros j Hj Hj0.
        specialize (Hin1 j ltac:(lia)).
        replace (buffer_ v1 + j) with (buffer + j) in Hin1 by lia.
        rewrite Hin1. unfold sector_idx_of. rewrite Hfo1. reflexivity.
      * intros j Hj. lia.
    + (* a later pass: at a sector boundary *)
      assert (Hal1 : file_ofs v1 mod BLOCK_SECTOR_SIZE = 0 /\ c0 <= bytes_read v1).
      { destruct IHa as [H | [H | [H | H]]]; [lia | lia | lia | exact H]. }
      destruct Hal1 as [Hal1 Hge1].
      assert (Hrem : sector_ofs_of v1 = 0).
      { unfold sector_ofs_of. rewrite Z.rem_mod_nonneg by lia. exact Hal1. }
      rewrite Hrem in Hmin.
      split; [| split].
      * destruct (Z.eq_dec (chunk_size_of inode v1) BLOCK_SECTOR_SIZE) as [He | Hne].
        -- right. right. right. split; [| lia]. rewrite He.
           rewrite <- (Z.mul_1_l BLOCK_SECTOR_SIZE) at 1.
           rewrite Z.mod_add by lia. exact Hal1.
        -- right. lia.
      * intros j Hj Hj0. rewrite Hout1 by lia. apply IHh; lia.
      * intros j Hj.
        destruct (Z.lt_ge_cases j (bytes_read v1)) as [Hlt | Hge].
        -- rewrite Hout1 by lia. apply IHm. lia.
        -- specialize (Hin1 (j - bytes_read v1) ltac:(lia)).
           replace (buffer_ v1 + (j - bytes_read v1)) with (buffer + j) in Hin1 by lia.
           rewrite Hin1. unfold file_byte, sector_idx_of.
           replace (ofs + j) with (file_ofs v1 + (j - bytes_read v1)) by lia.
           rewrite Hblock by lia.
           rewrite aligned_add_mod by lia. reflexivity.
Qed.

(** X15: what [file_read_at] delivers, for any offset [>= 0].  On an inode
    that keeps the bytes of one sector-sized block, as far as they lie
    below its length, in one sector (offsets from the length on may map
    anywhere or nowhere), with
    [c0 = BLOCK_SECTOR_SIZE - file_ofs mod BLOCK_SECTOR_SIZE] the bytes
    from [file_ofs] to the end of its sector and [n] the count returned:
    byte [j] of the buffer for [j < c0] is byte [j] of the sector that
    holds [file_ofs] (the sector's leading bytes, whatever the offset
    within the sector), and byte [j] for [c0 <= j < n] is byte
    [file_ofs + j] of the file.  Only the chunk taken from the first
    sector can be wrong, and it is right when [file_ofs] is at a sector
    boundary. *)
Theorem file_read_at_contents
    (file buffer size file_ofs : Z) (f : struct_file) (s : kstate) :
  file <> NULL -> files s !! file = Some f ->
  0 < BLOCK_SECTOR_SIZE <= 2 ^ 30 ->
  0 <= inode_length (inode f) <= max_signed ->
  0 <= size <= max_signed ->
  0 <= file_ofs <= max_signed ->
  (forall o i, 0 <= o -> o mod BLOCK_SECTOR_SIZE = 0 -> 0 <= i < BLOCK_SECTOR_SIZE ->
     o + i < inode_length (inode f) ->
     byte_to_sector (inode f) (o + i) = byte_to_sector (inode f) o) ->
  exists n s',
    file_read_at file buffer size file_ofs s = Ok (n, s') /\
    (forall j, 0 <= j < n ->
       j < BLOCK_SECTOR_SIZE - file_ofs mod BLOCK_SECTOR_SIZE ->
       mem s' (buffer + j)
       = sector_data (to_u32 (byte_to_sector (inode f) file_ofs)) j) /\
    (forall j, BLOCK_SECTOR_SIZE - file_ofs mod BLOCK_SECTOR_SIZE <= j < n ->
       mem s' (buffer + j) = file_byte (inode f) (file_ofs + j)).
Proof.
  intros Hn Hf Hbss Hlen Hsz Hofs Hblock.
  unfold file_read_at, bind. rewrite (load_live file f s Hn Hf).
  destruct (file_read_at_loop_total (Z.to_nat size) (inode f)
              (mk_locals buffer file_ofs size 0) s (le_n _))
    as (n & s' & Hrun & _).
  exists n, s'. split; [exact Hrun |].
  destruct (file_read_at_loop_iterates _ _ s _ _ _ _ _
              (iterates_start _ _ _) Hrun) as (v' & Hit & _ & ->).
  exact (proj2 (iterates_contents _ _ _ _ _ _ _ Hbss Hlen Hsz Hofs Hblock Hit)).
Qed.

End ReadContents.

(** * The further properties at concrete inputs *)

Section MoreExamples.

Import Disk File.

Lemma demo_sched_sorted : StronglySorted deadline_le (disk_queue demo_sched).
Proof. repeat constructor; unfold deadline_le; simpl; lia. Qed.

(** The 700-byte file keeps the bytes of each 512-byte block that lie
    below its length in one sector; past the length no offset maps to a
    sector, so the last block is not mapped as a whole. *)
Lemma demo_partial_block (o i : Z) :
  0 <= o -> o mod 512 = 0 -> 0 <= i < 512 -> o + i < 700 ->
  @byte_to_sector demo_partial 1 (o + i) = @byte_to_sector demo_partial 1 o.
Proof.
  intros Ho Hal Hi Hlt. simpl.
  assert (H512 : 512 <> 0) by lia.
  pose proof (Z.div_mod o 512 H512) as Hq. rewrite Hal in Hq.
  assert (Hdiv : (o + i) / 512 = o / 512).
  { symmetry. apply (Z.div_unique (o + i) 512 (o / 512) i); lia. }
  rewrite Hdiv.
  destruct (Z.leb_spec 0 (o + i)); [| lia]. destruct (Z.leb_spec 0 o); [| lia].
  destruct (Z.ltb_spec (o + i) 700); [| lia].
  destruct (Z.ltb_spec o 700); [reflexivity | lia].
Qed.

(** Past the length the blocks are not kept together: offset 712 maps to
    no sector while offset 512, the start of its block, maps to sector 1. *)
Lemma demo_partial_hole :
  @byte_to_sector demo_partial 1 (512 + 200) <> @byte_to_sector demo_partial 1 512.
Proof. vm_compute. discriminate. Qed.

(** Draining the example queue: four passes for four queued requests. *)
Lemma disk_process_drains_witness :
  exists st',
    run (repeat Process 4) demo_sched = Ok st' /\
    disk_queue st' = [] /\
    serviced st' = serviced demo_sched ++ disk_queue demo_sched /\
    forall m,
      run (repeat Process m) st'
      = Ok {| disk_queue := []; worker_log := worker_log st' ++ repeat (Sleep 10) m |}.
Proof.
  apply (disk_process_drains demo_sched 4). simpl. lia.
Defined.

(** Conservation on the example run. *)
Lemma disk_requests_conserved_witness :
  Permutation (serviced demo_sched ++ disk_queue demo_sched) (submitted demo_events) /\
  (length (serviced demo_sched) + length (disk_queue demo_sched)
   = length (submitted demo_events))%nat.
Proof.
  apply (disk_requests_conserved demo_events demo_sched). reflexivity.
Defined.

(** Three submissions with deadlines 5, 3, 5 and then three passes. *)
Lemma disk_service_order_is_stable_sort_witness :
  exists st',
    run (repeat Process 3)
      {| disk_queue := [ mk_request 11 true 0 3; mk_request 10 false 0 5;
                         mk_request 12 false 0 5 ];
         worker_log := [] |} = Ok st' /\
    disk_queue st' = [] /\
    Permutation (serviced st')
      [ mk_request 10 false 0 5; mk_request 11 true 0 3; mk_request 12 false 0 5 ] /\
    StronglySorted deadline_le (serviced st') /\
    forall d, with_deadline d (serviced st')
              = with_deadline d
                  [ mk_request 10 false 0 5; mk_request 11 true 0 3;
                    mk_request 12 false 0 5 ].
Proof.
  apply (disk_service_order_is_stable_sort
           [ Schedule 4096 10 false 0 5; Schedule 4128 11 true 0 3;
             Schedule 4160 12 false 0 5 ]
           {| disk_queue := [ mk_request 11 true 0 3; mk_request 10 false 0 5;
                              mk_request 12 false 0 5 ];
              worker_log := [] |} 3).
  - simpl. intros [H | [H | [H | []]]]; discriminate.
  - reflexivity.
  - simpl. lia.
Defined.

(** A request of deadline 0 submitted to the example queue. *)
Lemma disk_schedule_request_position_witness :
  exists st' q1 q2,
    disk_schedule_request 4224 15 false 0 0 demo_sched = Ok st' /\
    disk_queue demo_sched = q1 ++ q2 /\
    disk_queue st' = q1 ++ mk_request 15 false 0 0 :: q2 /\
    Forall (fun x => deadline x <= 0) q1 /\
    Forall (fun x => 0 < deadline x) q2 /\
    worker_log st' = worker_log demo_sched /\
    (Forall (fun x => 0 < deadline x) (disk_queue demo_sched) ->
     serviced (disk_process_iteration st')
     = serviced demo_sched ++ [mk_request 15 false 0 0] /\
     disk_queue (disk_process_iteration st') = disk_queue demo_sched).
Proof.
  apply (disk_schedule_request_position 4224 15 false 0 0 demo_sched).
  - unfold NULL; lia.
  - exact demo_sched_sorted.
Defined.

(** Seeking the example handle to 300 and asking where it is. *)
Lemma file_seek_tell_witness :
  (0 <= 300 ->
   (file_seek 7 300 >> file_tell 7) demo_state
   = Ok (300, {| files := <[7 := mk_file 1 300 false]> (files demo_state);
                 mem := mem demo_state; calls := calls demo_state |})) /\
  (300 < 0 -> file_seek 7 300 demo_state = Panic).
Proof.
  apply (file_seek_tell 7 300 (mk_file 1 5 false) demo_state).
  - unfold NULL; lia.
  - reflexivity.
Defined.

(** [file_read] and [file_write] through the example handle, whose inode
    layer transfers nothing. *)
Lemma file_read_write_advance_pos_witness :
  @file_read demo 7 1000 100 demo_state
  = Ok (0, {| files := <[7 := mk_file 1 (to_s32 (5 + 0)) false]> (files demo_state);
              mem := mem demo_state;
              calls := [call_inode_read_at 1 1000 100 5] |}) /\
  @file_write demo 7 1000 100 demo_state
  = Ok (0, {| files := <[7 := mk_file 1 (to_s32 (5 + 0)) false]> (files demo_state);
              mem := mem demo_state;
              calls := [call_inode_write_at 1 1000 100 5] |}) /\
  exists s',
    (@file_read demo 7 1000 100 >> file_tell 7) demo_state = Ok (to_s32 (5 + 0), s').
Proof.
  apply (@file_read_write_advance_pos demo 7 1000 100 (mk_file 1 5 false) demo_state).
  - unfold NULL; lia.
  - reflexivity.
Defined.

(** Reopening the example handle into a new object at address 9. *)
Lemma file_reopen_independent_witness :
  exists r s',
    @file_reopen demo 7 9 demo_state = Ok (r, s') /\
    files s' !! 7 = Some (mk_file 1 5 false) /\
    (r = NULL <-> 1 = NULL \/ 9 = NULL) /\
    (r <> NULL ->
       r = 9 /\
       files s' !! 9 = Some (mk_file 1 0 false) /\
       calls s' = [call_inode_reopen 1]) /\
    (r = NULL -> calls s' = [call_inode_reopen 1; call_inode_close 1]).
Proof.
  apply (@file_reopen_independent demo 7 9 (mk_file 1 5 false) demo_state).
  - unfold NULL; lia.
  - reflexivity.
  - lia.
Defined.

(** Opening inode 2 into a fresh object at address 9, then closing it. *)
Lemma file_open_close_releases_once_witness :
  exists s',
    (let* file := file_open 2 9 in file_close file) demo_state = Ok (tt, s') /\
    files s' = files demo_state /\ mem s' = mem demo_state /\
    calls s' = [call_inode_close 2].
Proof.
  apply (file_open_close_releases_once 2 9 demo_state). reflexivity.
Defined.

(** Deny, deny, allow, deny and then close on the example handle. *)
Lemma file_close_releases_denial_witness :
  exists s',
    (toggle_calls 7 [Deny; Deny; Allow; Deny] >> file_close 7) demo_state
    = Ok (tt, s') /\
    files s' = delete 7 (files demo_state) /\
    mem s' = mem demo_state /\
    net_denials 1 (calls s') = net_denials 1 (calls demo_state) - Z.b2z false.
Proof.
  apply (file_close_releases_denial 7 [Deny; Deny; Allow; Deny]
           (mk_file 1 5 false) demo_state).
  - unfold NULL; lia.
  - reflexivity.
Defined.

(** A read at the end of the example file. *)
Lemma file_read_at_nothing_to_read_witness :
  @file_read_at demo 7 1000 100 1536 demo_state = Ok (0, demo_state).
Proof.
  apply (@file_read_at_nothing_to_read demo 7 1000 100 1536
           (mk_file 1 5 false) demo_state).
  - unfold NULL; lia.
  - reflexivity.
  - right. right. unfold min_signed. simpl. lia.
Defined.

(** 600 bytes at offset 500 of the example file. *)
Lemma file_read_at_stores_confined_witness :
  exists n s',
    @file_read_at demo 7 1000 600 500 demo_state = Ok (n, s') /\
    0 <= n <= 600 /\
    (n = 0 -> s' = demo_state) /\
    (forall a, a < 1000 \/ 1000 + n + 512 - 1 <= a -> mem s' a = mem demo_state a).
Proof.
  apply (@file_read_at_stores_confined demo 7 1000 600 500
           (mk_file 1 5 false) demo_state).
  - unfold NULL; lia.
  - reflexivity.
  - unfold max_signed; lia.
Defined.


(** 300 bytes asked for from the start of sector 1 of the 700-byte file:
    188 bytes are returned, each the byte of the file at its offset. *)
Lemma file_read_at_aligned_correct_witness :
  (exists s', @file_read_at demo_partial 7 1000 300 512 demo_state = Ok (188, s')) /\
  exists n s',
    @file_read_at demo_partial 7 1000 300 512 demo_state = Ok (n, s') /\
    forall j, 0 <= j < n -> mem s' (1000 + j) = @file_byte demo_partial 1 (512 + j).
Proof.
  split; [eexists; vm_compute; reflexivity |].
  apply (@file_read_at_aligned_correct demo_partial 7 1000 300 512
           (mk_file 1 5 false) demo_state).
  - unfold NULL; lia.
  - reflexivity.
  - simpl; lia.
  - unfold max_signed; simpl; lia.
  - unfold max_signed; lia.
  - unfold max_signed; lia.
  - reflexivity.
  - intros o i Ho Hal Hi Hlt. apply demo_partial_block; assumption.
Defined.

(** 200 bytes at offset 500 of the 700-byte file: the first 12 bytes come
    from the head of sector 0, the other 188 are the file's. *)
Lemma file_read_at_contents_witness :
  (exists s', @file_read_at demo_partial 7 1000 200 500 demo_state = Ok (200, s')) /\
  exists n s',
    @file_read_at demo_partial 7 1000 200 500 demo_state = Ok (n, s') /\
    (forall j, 0 <= j < n -> j < 512 - 500 mod 512 ->
       mem s' (1000 + j)
       = @sector_data demo_partial (to_u32 (@byte_to_sector demo_partial 1 500)) j) /\
    (forall j, 512 - 500 mod 512 <= j < n ->
       mem s' (1000 + j) = @file_byte demo_partial 1 (500 + j)).
Proof.
  split; [eexists; vm_compute; reflexivity |].
  apply (@file_read_at_contents demo_partial 7 1000 200 500
           (mk_file 1 5 false) demo_state).
  - unfold NULL; lia.
  - reflexivity.
  - simpl; lia.
  - unfold max_signed; simpl; lia.
  - unfold max_signed; lia.
  - unfold max_signed; lia.
  - intros o i Ho Hal Hi Hlt. apply demo_partial_block; assumption.
Defined.

End MoreExamples.
